(** * go-ipfs, package core/commands: [cat.go] and [filestore.go]

    A shallow embedding of the streaming commands [ipfs cat] and
    [ipfs filestore ls|verify|dups]:

    - [cat] (cat.go:118) and the CLI [PostRun] of [CatCmd] (cat.go:66);
    - the CLI [PostRun] of [lsFileStore] (filestore.go:83);
    - the three producer goroutines that own an output channel:
      [perKeyActionToChan] (filestore.go:267), [listResToChan]
      (filestore.go:248) and the goroutine of [dupsFileStore]
      (filestore.go:214).

    Integers of Go are modelled as [Z] with their wrap-around written out,
    the response emitter and the standard streams as a trace of events, and
    the goroutines as small-step machines run against a buffered channel, a
    cancellable context and a consumer. *)

From Stdlib Require Import ZArith List String Bool Arith Lia.
Import ListNotations.

Local Open Scope string_scope.

(* ================================================================== *)
(** ** Go values shared by both files *)

(** The line feed that ends the format ["%s\n"]. *)
Definition newline : string := String (Ascii.ascii_of_nat 10) EmptyString.

(** [uint64(x)] and [int64(x)] conversions. *)
Definition uint64 (z : Z) : Z := (z mod 2 ^ 64)%Z.
Definition int64 (z : Z) : Z := ((z + 2 ^ 63) mod 2 ^ 64 - 2 ^ 63)%Z.

(** Go [error] values.  [io.EOF] and [cmds.ErrRcvdError] are sentinels that
    the code compares by identity; every other error only has its text. *)
Inductive GoError : Type :=
| io_EOF
| ErrRcvdError
| OtherError (text : string).

(** What the code takes from package go-ipfs-cmds, declared outside these
    two files: the error codes, the text of the sentinel
    [cmds.ErrRcvdError], and the type of [io.Reader] values. *)
Class Cmds : Type := {
  ErrorType : Type;
  ErrNormal : ErrorType;
  ErrRcvdError_text : string;
  Reader : Type
}.

Section GoValues.
Context `{Cmds}.

(** [err.Error()] *)
Definition Error_text (err : GoError) : string :=
  match err with
  | io_EOF => "EOF"
  | ErrRcvdError => ErrRcvdError_text
  | OtherError text => text
  end.

(** [err == io.EOF] and [err == cmds.ErrRcvdError] *)
Definition is_io_EOF (err : GoError) : bool :=
  match err with io_EOF => true | _ => false end.

Definition is_ErrRcvdError (err : GoError) : bool :=
  match err with ErrRcvdError => true | _ => false end.

(** [*cmdsutil.Error], what [res.Error()] returns. *)
Record CmdError : Type := { Message : string; Code : ErrorType }.

(** The first argument of [re.SetError] is an [interface{}]: the code passes
    a string, an [error] or a [*cmdsutil.Error] ([None]: a nil pointer). *)
Inductive ErrValue : Type :=
| EString (s : string)
| EError (err : GoError)
| ECmdError (e : option CmdError).

(** What a [PostRun] goroutine does to its emitter [re] and to the standard
    streams, in order. *)
Inductive Event : Type :=
| CopyAll                         (* cmds.Copy(re, res); closes re itself *)
| SetError (v : ErrValue) (code : ErrorType)  (* re.SetError(v, code) *)
| BarStart (total : Z)            (* bar.Start(), the bar made for total *)
| EmitProgress (r : Reader) (total : Z)
                                  (* re.Emit(reader), the bar's view of r *)
| Stdout (line : string)          (* fmt.Fprintf(os.Stdout, ...) *)
| Stderr (line : string)          (* fmt.Fprintf(os.Stderr, ...) *)
| Panic                           (* run-time panic of the goroutine *)
| Close.                          (* re.Close() *)

End GoValues.

(* ================================================================== *)
(** ** cat.go *)

Module Cat.
Section Model.
Context `{Cmds}.

(** cat.go:16 *)
Definition progressBarMinSize : Z := 1024 * 1024 * 8.

(** What [res.Next()] yields in [PostRun]: the value is cast to [io.Reader];
    [VNotReader ty] is a value of another dynamic type, printed by [%T] as
    [ty]. *)
Inductive Value : Type :=
| VReader (r : Reader)
| VNotReader (ty : string).

(** The response [res] as [PostRun] sees it: [res.Length()] (a uint64),
    the outcome of the one [res.Next()] it performs, [res.Error()], and the
    error [cmds.Copy(re, res)] would return ([None]: nil). *)
Record Response : Type := {
  Length : Z;
  Next : Value + GoError;
  Error : option CmdError;
  Copy : option GoError
}.

(** The two branches of cat.go:72. *)
Inductive Plan : Type := DirectCopy | ProgressPath.

(** The test of cat.go:72,
    [res.Length() > 0 && res.Length() < progressBarMinSize]. *)
Definition plan (length : Z) : Plan :=
  if ((0 <? length) && (length <? progressBarMinSize))%Z
  then DirectCopy else ProgressPath.

(** cat.go:73-79 *)
Definition direct_copy (res : Response) : list Event :=
  match Copy res with
  | Some err => [CopyAll; SetError (EError err) ErrNormal]
  | None => [CopyAll]
  end.

(** cat.go:82-110; [re.Close()] is deferred at line 83. *)
Definition progress_path (res : Response) : list Event :=
  match Next res with
  | inr err =>
      if is_ErrRcvdError err then
        match Error res with
        | Some e => [SetError (EString (Message e)) (Code e); Close]
        | None => [Panic; Close]           (* res.Error().Message on nil *)
        end
      else [SetError (ECmdError (Error res)) ErrNormal; Close]
  | inl (VNotReader ty) =>
      [SetError (EString ("expected io.Reader, not " ++ ty)) ErrNormal; Close]
  | inl (VReader r) =>
      [BarStart (int64 (Length res));
       EmitProgress r (int64 (Length res));
       Close]
  end.

(** The goroutine of [CatCmd.PostRun[cmds.CLI]], cat.go:71-111. *)
Definition CatCmd_PostRun (res : Response) : list Event :=
  match plan (Length res) with
  | DirectCopy => direct_copy res
  | ProgressPath => progress_path res
  end.

Definition is_CopyAll (e : Event) : bool :=
  match e with CopyAll => true | _ => false end.

Definition is_progress (e : Event) : bool :=
  match e with BarStart _ | EmitProgress _ _ => true | _ => false end.

(** *** [cat], cat.go:118 *)

(** [coreunix.Cat(ctx, node, fpath)] yields a reader with a declared size
    ([read.Size()]) or an error. *)
Class Unixfs : Type := {
  DagReader : Type;
  Size : DagReader -> Z;
  coreunix_Cat : string -> DagReader + GoError
}.

Context `{Unixfs}.

(** The three results of [cat]; a nil slice is [None]. *)
Record CatResult : Type := {
  readers : option (list DagReader);
  length : Z;
  err : option GoError;
  looked_up : list string        (* the calls of coreunix.Cat, in order *)
}.

(** The loop of cat.go:121-130, on the paths still to visit. *)
Fixpoint cat_loop (paths : list string) (readers : list DagReader)
    (length : Z) (looked_up : list string) : CatResult :=
  match paths with
  | [] =>
      {| readers := Some readers; length := length; err := None;
         looked_up := looked_up |}
  | fpath :: paths' =>
      match coreunix_Cat fpath with
      | inr e =>
          {| readers := None; length := 0; err := Some e;
             looked_up := looked_up ++ [fpath] |}
      | inl read =>
          cat_loop paths' (readers ++ [read])
                   (uint64 (length + uint64 (Size read)))
                   (looked_up ++ [fpath])
      end
  end.

Definition cat (paths : list string) : CatResult :=
  cat_loop paths [] (uint64 0) [].

End Model.
End Cat.

(* ================================================================== *)
(** ** filestore.go: values *)

(** What the code takes from packages go-cid and filestore, declared
    outside these two files: content identifiers with [cid.Decode] and the
    [String] method of a Cid, the status codes, and the fields of
    [filestore.ListRes] other than [Status] and [ErrorMsg] with their zero
    value. *)
Class Filestore : Type := {
  Cid : Type;
  cid_Decode : string -> Cid + GoError;
  Cid_String : Cid -> string;
  Status : Type;
  StatusOtherError : Status;
  Entry : Type;
  zero_Entry : Entry
}.

Module Fs.
Section Values.
Context `{Cmds} `{Filestore}.

(** [filestore.ListRes] *)
Record ListRes : Type := {
  ListRes_Status : Status;
  ErrorMsg : string;
  ListRes_Entry : Entry
}.

(** [RefWrapper], the item of [dupsFileStore]. *)
Record RefWrapper : Type := { Ref : string; Err : string }.

(** The literal of filestore.go:274-277; [fmt.Sprintf("%s: %v", arg, err)]
    prints the argument, a colon and a space, and [err.Error()]. *)
Definition parse_failure (arg : string) (err : GoError) : ListRes :=
  {| ListRes_Status := StatusOtherError;
     ErrorMsg := arg ++ ": " ++ Error_text err;
     ListRes_Entry := zero_Entry |}.

End Values.

(* ------------------------------------------------------------------ *)
(** ** filestore.go:83-128, the CLI [PostRun] of [lsFileStore] *)

Section Bridge.
Context `{Cmds} `{Filestore}.

(** The [FormatLong] method of a ListRes, of package filestore. *)
Variable FormatLong : ListRes -> string.

(** What [res.Next()] hands over; the code asserts
    that [v] is a pointer to a [filestore.ListRes], which panics on any
    other value. *)
Inductive Value : Type :=
| VListRes (r : ListRes)
| VForeign.

(** The response [res]: the outcomes of the successive calls of
    [res.Next()], and [res.Error()].  A response whose outcomes are used up
    reports [io.EOF]. *)
Record Response : Type := {
  pulls : list (Value + GoError);
  Error : option CmdError
}.

(** The state in which the loop of filestore.go:95-110 is left. *)
Record LoopExit : Type := {
  printed : list Event;          (* the lines written so far *)
  errors : bool;                 (* the variable [errors] *)
  err : option GoError;          (* the variable [err]; None: a panic *)
  unread : list (Value + GoError) (* outcomes never asked for *)
}.

(** filestore.go:95-110 *)
Fixpoint pull_loop (pulls : list (Value + GoError)) (errors : bool)
    (printed : list Event) : LoopExit :=
  match pulls with
  | [] =>
      {| printed := printed; errors := errors; err := Some io_EOF;
         unread := [] |}
  | inr e :: rest =>
      {| printed := printed; errors := errors; err := Some e;
         unread := rest |}
  | inl VForeign :: rest =>
      {| printed := printed; errors := errors; err := None;
         unread := rest |}
  | inl (VListRes r) :: rest =>
      if (ErrorMsg r =? EmptyString)%string
      then pull_loop rest errors
                     (printed ++ [Stdout (FormatLong r ++ newline)])
      else pull_loop rest true
                     (printed ++ [Stderr (ErrorMsg r ++ newline)])
  end.

(** The test of filestore.go:112, [err == io.EOF || err.Error() == "EOF"]. *)
Definition clean_end (e : GoError) : bool :=
  is_io_EOF e || (Error_text e =? "EOF")%string.

(** filestore.go:112-119; [None] when [e.Message] dereferences nil. *)
Definition classify (e : GoError) (res : Response) : option (list Event) :=
  if clean_end e then Some []
  else if is_ErrRcvdError e then
    match Error res with
    | Some ce => Some [SetError (EString (Message ce)) (Code ce)]
    | None => None
    end
  else Some [SetError (EError e) ErrNormal].

(** filestore.go:121-123 *)
Definition aggregate (errors : bool) : list Event :=
  if errors
  then [SetError (EString "errors while displaying some entries") ErrNormal]
  else [].

(** The goroutine of [lsFileStore.PostRun[cmds.CLI]], filestore.go:87-124;
    [re.Close()] is deferred at line 88 and so also runs after a panic. *)
Definition lsFileStore_PostRun (res : Response) : list Event :=
  let x := pull_loop (pulls res) false [] in
  match err x with
  | None => printed x ++ [Panic; Close]
  | Some e =>
      match classify e res with
      | None => printed x ++ [Panic; Close]
      | Some evs => printed x ++ evs ++ aggregate (errors x) ++ [Close]
      end
  end.

(** The outcomes [PostRun] never asks for. *)
Definition lsFileStore_unread (res : Response) : list (Value + GoError) :=
  unread (pull_loop (pulls res) false []).

End Bridge.
End Fs.

(* ================================================================== *)
(** ** Producer goroutines and their output channel

    Each of the three producers has the shape

      out := make(chan interface{}, 128)
      go func() { defer close(out); ... }()

    The body of a goroutine is given as a function from its control point
    to the operation it performs next; the machine below supplies what is
    common: the buffered channel, the context, the consumer and the
    deferred [close(out)]. *)

Module Chan.

(** The capacity of [make(chan interface{}, 128)]. *)
Definition capacity : nat := 128.

Section Machine.
Variables (P Item Call : Type).

(** The next operation of a goroutine at a control point. *)
Inductive Op : Type :=
| OpCall (c : Call) (k : P)     (* call a collaborator, go on at k *)
| OpSkip (k : P)                (* a local computation *)
| OpSend (v : Item) (k : P)     (* out <- v *)
| OpSelect (v : Item) (k : P)   (* select: out <- v, or <-ctx.Done() and return *)
| OpReturn.                     (* return, or the end of the body *)

Inductive Control : Type :=
| Running (p : P)
| Exited.

Record World : Type := {
  ctl : Control;           (* the producer goroutine *)
  buf : list Item;         (* items sent and not yet received, oldest first *)
  closes : nat;            (* how often close(out) ran *)
  ctx_done : bool;         (* ctx.Done() is closed *)
  received : list Item;    (* what the consumer got, oldest first *)
  eos : bool;              (* the consumer's range loop over out has ended *)
  calls : list Call        (* the collaborator calls made, oldest first *)
}.

Definition start (p : P) : World :=
  {| ctl := Running p; buf := []; closes := 0; ctx_done := false;
     received := []; eos := false; calls := [] |}.

(** Who moves. *)
Inductive Label : Type :=
| Produce     (* the producer does its operation; a select sends *)
| TakeDone    (* the producer's select takes the case <-ctx.Done() *)
| Cancel      (* the context is cancelled *)
| Receive.    (* the consumer gets an item, or finds out closed and empty *)

Variable body : P -> Op.

(** The deferred [close(out)] runs when the goroutine returns. *)
Definition exit (w : World) : World :=
  {| ctl := Exited; buf := buf w; closes := S (closes w);
     ctx_done := ctx_done w; received := received w; eos := eos w;
     calls := calls w |}.

Definition send (v : Item) (k : P) (w : World) : option World :=
  if Nat.ltb (List.length (buf w)) capacity
  then Some {| ctl := Running k; buf := buf w ++ [v]; closes := closes w;
               ctx_done := ctx_done w; received := received w;
               eos := eos w; calls := calls w |}
  else None.

(** One move; [None] when the move is not possible in [w] (a send on a full
    buffer blocks, a receive on an open empty channel blocks). *)
Definition step (l : Label) (w : World) : option World :=
  match l with
  | Produce =>
      match ctl w with
      | Exited => None
      | Running p =>
          match body p with
          | OpCall c k =>
              Some {| ctl := Running k; buf := buf w; closes := closes w;
                      ctx_done := ctx_done w; received := received w;
                      eos := eos w; calls := calls w ++ [c] |}
          | OpSkip k =>
              Some {| ctl := Running k; buf := buf w; closes := closes w;
                      ctx_done := ctx_done w; received := received w;
                      eos := eos w; calls := calls w |}
          | OpSend v k => send v k w
          | OpSelect v k => send v k w
          | OpReturn => Some (exit w)
          end
      end
  | TakeDone =>
      match ctl w with
      | Exited => None
      | Running p =>
          match body p with
          | OpSelect _ _ => if ctx_done w then Some (exit w) else None
          | _ => None
          end
      end
  | Cancel =>
      Some {| ctl := ctl w; buf := buf w; closes := closes w;
              ctx_done := true; received := received w; eos := eos w;
              calls := calls w |}
  | Receive =>
      if eos w then None else
      match buf w with
      | v :: rest =>
          Some {| ctl := ctl w; buf := rest; closes := closes w;
                  ctx_done := ctx_done w; received := received w ++ [v];
                  eos := false; calls := calls w |}
      | [] =>
          if Nat.ltb 0 (closes w)
          then Some {| ctl := ctl w; buf := []; closes := closes w;
                       ctx_done := ctx_done w; received := received w;
                       eos := true; calls := calls w |}
          else None
      end
  end.

(** A schedule is run from left to right. *)
Fixpoint run (sched : list Label) (w : World) : option World :=
  match sched with
  | [] => Some w
  | l :: sched' =>
      match step l w with
      | Some w' => run sched' w'
      | None => None
      end
  end.

Definition exited (w : World) : bool :=
  match ctl w with Exited => true | Running _ => false end.

(** The items put on the channel so far. *)
Definition delivered (w : World) : list Item := received w ++ buf w.

End Machine.
End Chan.

Arguments Chan.OpCall {P Item Call}.
Arguments Chan.OpSkip {P Item Call}.
Arguments Chan.OpSend {P Item Call}.
Arguments Chan.OpSelect {P Item Call}.
Arguments Chan.OpReturn {P Item Call}.
Arguments Chan.Running {P}.
Arguments Chan.Exited {P}.
Arguments Chan.ctl {P Item Call}.
Arguments Chan.buf {P Item Call}.
Arguments Chan.closes {P Item Call}.
Arguments Chan.ctx_done {P Item Call}.
Arguments Chan.received {P Item Call}.
Arguments Chan.eos {P Item Call}.
Arguments Chan.calls {P Item Call}.
Arguments Chan.start {P Item Call}.
Arguments Chan.step {P Item Call}.
Arguments Chan.run {P Item Call}.
Arguments Chan.exit {P Item Call}.
Arguments Chan.send {P Item Call}.
Arguments Chan.exited {P Item Call}.
Arguments Chan.delivered {P Item Call}.

(* ------------------------------------------------------------------ *)
(** ** The three producers of filestore.go *)

Module Producers.
Import Chan Fs.
Section Bodies.
Context `{Cmds} `{Filestore}.

(** *** [perKeyActionToChan], filestore.go:267 *)

Inductive PerKey : Type :=
| PKRange (args : list string)          (* line 271, the arguments left *)
| PKSendError (v : ListRes) (args : list string)  (* line 274, bare send *)
| PKSelect (v : ListRes) (args : list string).    (* line 281, select *)

Definition perKeyActionToChan (action : Cid -> ListRes) (p : PerKey)
  : Op PerKey ListRes Cid :=
  match p with
  | PKRange [] => OpReturn
  | PKRange (arg :: args) =>
      match cid_Decode arg with
      | inr err => OpSkip (PKSendError (parse_failure arg err) args)
      | inl c => OpCall c (PKSelect (action c) args)
      end
  | PKSendError v args => OpSend v (PKRange args)   (* continue *)
  | PKSelect v args => OpSelect v (PKRange args)
  end.

(** *** [listResToChan], filestore.go:248

    [next] is a closure with a state of its own, here [G]; it yields a
    result or nil.  A poll that yields a result is logged as a call; the
    poll that yields nil is the return of line 255. *)

Inductive ListAll (G : Type) : Type :=
| LAPoll (g : G)                        (* line 253 *)
| LASelect (v : ListRes) (g : G).       (* line 257 *)

Definition listResToChan {G : Type} (next : G -> option ListRes * G)
    (p : ListAll G) : Op (ListAll G) ListRes unit :=
  match p with
  | LAPoll _ g =>
      match next g with
      | (None, _) => OpReturn
      | (Some r, g') => OpCall tt (LASelect _ r g')
      end
  | LASelect _ r g => OpSelect r (LAPoll _ g)
  end.

(** *** The goroutine of [dupsFileStore], filestore.go:214

    [ch] is the channel of all keys, here the keys it hands over before it
    is closed; [Has] is [fs.MainBlockstore().Has]. *)

Inductive Dups : Type :=
| DRange (ch : list Cid)                       (* line 216 *)
| DSendErr (v : RefWrapper)                    (* line 219 *)
| DSendRef (v : RefWrapper) (ch : list Cid)    (* line 223 *)
| DReturn.                                     (* line 220 *)

Definition dupsFileStore (Has : Cid -> bool + GoError) (p : Dups)
  : Op Dups RefWrapper Cid :=
  match p with
  | DRange [] => OpReturn
  | DRange (c :: ch) =>
      match Has c with
      | inr err =>
          OpCall c (DSendErr {| Ref := EmptyString; Err := Error_text err |})
      | inl true =>
          OpCall c (DSendRef {| Ref := Cid_String c; Err := EmptyString |} ch)
      | inl false => OpCall c (DRange ch)
      end
  | DSendErr v => OpSend v DReturn
  | DSendRef v ch => OpSend v (DRange ch)
  | DReturn => OpReturn
  end.

(** What one argument of [perKeyActionToChan] puts on the channel. *)
Definition perKeyResult (action : Cid -> ListRes) (arg : string) : ListRes :=
  match cid_Decode arg with
  | inr err => parse_failure arg err
  | inl c => action c
  end.

(** The identifiers among the arguments, in order. *)
Fixpoint decoded (args : list string) : list Cid :=
  match args with
  | [] => []
  | arg :: args' =>
      match cid_Decode arg with
      | inl c => c :: decoded args'
      | inr _ => decoded args'
      end
  end.

End Bodies.
End Producers.

(* ================================================================== *)
(** ** Quantities the statements speak of *)

Section Totals.
Context `{Cat.Unixfs}.

(** The sum of the declared sizes of a list of readers, in [Z]. *)
Definition declared_total (rs : list Cat.DagReader) : Z :=
  fold_right (fun r acc => (Cat.Size r + acc)%Z) 0%Z rs.

End Totals.

Section Lines.
Context `{Cmds} `{Filestore}.
Variable FormatLong : Fs.ListRes -> string.

(** A result is a soft failure when it carries an error message. *)
Definition soft (r : Fs.ListRes) : bool :=
  negb (Fs.ErrorMsg r =? EmptyString)%string.

(** The one line a result is shown as: the diagnostic on stderr for a soft
    failure, the long format on stdout otherwise. *)
Definition line_of (r : Fs.ListRes) : Event :=
  if soft r then Stderr (Fs.ErrorMsg r ++ newline)
  else Stdout (FormatLong r ++ newline).

(** A pull that hands over a result. *)
Definition pulled (r : Fs.ListRes) : Fs.Value + GoError :=
  inl (Fs.VListRes r).

End Lines.

Section Cancellation.
Import Chan.
Context {P Item Call : Type}.
Variable body : P -> Op P Item Call.

(** From [w], a producer that stops within one item of the cancellation:
    however the run goes on after the signal, at most one more item is put
    on the channel and at most one more collaborator call is made. *)
Definition stops_within_one_item (w : World P Item Call) : Prop :=
  forall sched w',
    run body (Cancel :: sched) w = Some w' ->
    (List.length (delivered w') <= List.length (delivered w) + 1)%nat /\
    (List.length (calls w') <= List.length (calls w) + 1)%nat.

(** In [w] the producer can take the cancellation case, and having taken
    it has left for good: the channel is closed by that move, and nothing
    is sent, called or closed afterwards. *)
Definition leaves_on_cancellation (w : World P Item Call) : Prop :=
  exists w',
    step body TakeDone w = Some w' /\
    ctl w' = Exited /\
    closes w' = S (closes w) /\
    delivered w' = delivered w /\
    forall sched w'',
      run body sched w' = Some w'' ->
      ctl w'' = Exited /\ delivered w'' = delivered w /\
      calls w'' = calls w /\ closes w'' = closes w'.

End Cancellation.

Section Invariants.
Import Chan Producers.
Context `{Cmds} `{Filestore}.

(** The channel was closed once if the goroutine has returned, and not at
    all if it has not. *)
Definition closed_iff_exited {P Item Call : Type}
    (w : World P Item Call) : Prop :=
  closes w = if exited w then 1%nat else 0%nat.

(** The consumer's loop ends only on a closed and empty channel. *)
Definition eos_sound {P Item Call : Type}
    (w : World P Item Call) : Prop :=
  closed_iff_exited w /\ (eos w = true -> exited w = true /\ buf w = []).

(** Once the goroutine has returned, a consumer that keeps receiving gets
    every item that was sent and then the end of the stream. *)
Definition consumer_sees_end {P Item Call : Type}
    (body : P -> Op P Item Call) (w : World P Item Call) : Prop :=
  exited w = true -> eos w = false ->
  exists w',
    run body (repeat Receive (S (List.length (buf w)))) w = Some w' /\
    eos w' = true /\ received w' = delivered w /\ buf w' = [].

(** Where [perKeyActionToChan] stands after it has dealt with the
    arguments [pre] of [args]: their results are on the channel, in order,
    the action was called on those of them that are identifiers, and the
    goroutine is at the control point the next argument puts it in. *)
Definition perKey_at (action : Cid -> Fs.ListRes) (args : list string)
    (w : World PerKey Fs.ListRes Cid) : Prop :=
  match ctl w with
  | Running (PKRange rest) =>
      exists pre,
        args = (pre ++ rest)%list /\
        delivered w = map (perKeyResult action) pre /\
        calls w = decoded pre
  | Running (PKSendError v rest) =>
      exists pre arg e,
        args = (pre ++ arg :: rest)%list /\
        cid_Decode arg = inr e /\ v = Fs.parse_failure arg e /\
        delivered w = map (perKeyResult action) pre /\
        calls w = decoded pre
  | Running (PKSelect v rest) =>
      exists pre arg c,
        args = (pre ++ arg :: rest)%list /\
        cid_Decode arg = inl c /\ v = action c /\
        delivered w = map (perKeyResult action) pre /\
        calls w = decoded (pre ++ [arg])
  | Exited =>
      exists pre rest,
        args = (pre ++ rest)%list /\
        delivered w = map (perKeyResult action) pre /\
        (ctx_done w = false -> rest = []) /\
        (calls w = decoded pre \/
         exists arg rest', rest = arg :: rest' /\
                           calls w = decoded (pre ++ [arg]))
  end.

(** The schedule that lets [perKeyActionToChan] visit every argument with
    a consumer that takes each item at once: decode (and act), send,
    receive; at the end the return and the end of the stream. *)
Definition lockstep (args : list string) : list Label :=
  (flat_map (fun _ => [Produce; Produce; Receive]) args
   ++ [Produce; Receive])%list.

End Invariants.

(* ================================================================== *)
(** ** cat.go:27-65, [CatCmd.Run] *)

Module CatRun.
Section Model.
Context `{Cmds} `{Cat.Unixfs}.

(** What [Run] finds around it: the error of [GetNode] ([None]: a node),
    [node.OnlineMode()], the error of [node.SetupOfflineRouting()], and
    the error of [re.Emit(reader)]. *)
Record Env : Type := {
  GetNode : option GoError;
  OnlineMode : bool;
  SetupOfflineRouting : option GoError;
  Emit : option GoError
}.

(** What [Run] does to its emitter [re]; every error is set with
    [cmdsutil.ErrNormal]. *)
Inductive RunEvent : Type :=
| RSetError (err : GoError)
| RSetLength (length : Z)
| REmit (readers : list Cat.DagReader)  (* io.MultiReader(readers...) *)
| RClose.

(** cat.go:35-40 *)
Definition offline_routing (env : Env) : option GoError :=
  if OnlineMode env then None else SetupOfflineRouting env.

(** cat.go:57-64, once [cat] has returned without error. *)
Definition emit_all (env : Env) (r : Cat.CatResult) : list RunEvent :=
  [RSetLength (Cat.length r);
   REmit (match Cat.readers r with Some rs => rs | None => [] end)]
  ++ match Emit env with
     | Some e => [RSetError e]
     | None => []
     end
  ++ [RClose].

Definition CatCmd_Run (env : Env) (paths : list string) : list RunEvent :=
  match GetNode env with
  | Some e => [RSetError e]
  | None =>
      match offline_routing env with
      | Some e => [RSetError e]
      | None =>
          let r := Cat.cat paths in
          match Cat.err r with
          | Some e => [RSetError e]
          | None => emit_all env r
          end
      end
  end.

Definition is_RClose (e : RunEvent) : bool :=
  match e with RClose => true | _ => false end.

Definition is_REmit (e : RunEvent) : bool :=
  match e with REmit _ => true | _ => false end.

Definition is_RSetLength (e : RunEvent) : bool :=
  match e with RSetLength _ => true | _ => false end.

End Model.
End CatRun.

Section Counting.
Context `{Cmds}.

Definition is_Close (e : Event) : bool :=
  match e with Close => true | _ => false end.

Definition is_SetError (e : Event) : bool :=
  match e with SetError _ _ => true | _ => false end.

Definition is_Stdout (e : Event) : bool :=
  match e with Stdout _ => true | _ => false end.

Definition is_Stderr (e : Event) : bool :=
  match e with Stderr _ => true | _ => false end.

(** How many events of a trace pass a test. *)
Definition count (f : Event -> bool) (trace : list Event) : nat :=
  List.length (filter f trace).

(** The emitter is finished by [cmds.Copy], which closes it itself, or by
    [re.Close()]. *)
Definition finishes (e : Event) : bool :=
  Cat.is_CopyAll e || is_Close e.

End Counting.

(* ================================================================== *)
(** ** filestore.go: [getFilestore], [lsFileStore.Run], and the text
       marshaler of [verifyFileStore] *)

Module FsRun.
Import Chan Producers.
Section Model.
Context `{Cmds} `{Filestore}.

(** [*core.IpfsNode] and [*filestore.Filestore]; [Node_Filestore n] is the
    field [n.Filestore], [None] when it is nil. *)
Variables IpfsNode FS : Type.
Variable Node_Filestore : IpfsNode -> option FS.

(** filestore.go:236-246; the argument is what [g.GetNode()] returns, and
    a nil pointer or a nil error is [None]. *)
Definition getFilestore (g : IpfsNode + GoError)
  : option IpfsNode * option FS * option GoError :=
  match g with
  | inr err => (None, None, Some err)
  | inl n =>
      match Node_Filestore n with
      | None => (Some n, None, Some (OtherError "filestore not enabled"))
      | Some fs => (Some n, Some fs, None)
      end
  end.

(** [filestore.List(fs, c)], and [filestore.ListAll(fs)], which returns an
    error or a closure [next]: here the state [G] the closure starts in,
    and the function it is. *)
Variable G : Type.
Variable List : FS -> Cid -> Fs.ListRes.
Variable ListAll : FS -> G + GoError.
Variable next : G -> option Fs.ListRes * G.

(** What is seen of a call of [Run]: the error it set, the values it
    emitted, whether it has returned, and whether its context was
    cancelled. *)
Record Seen : Type := {
  set_error : option GoError;
  emitted : list Fs.ListRes;
  returned : bool;
  cancelled : bool
}.

(** [re.SetError(err, cmdsutil.ErrNormal); return]; the context plays no
    part, and is recorded as not cancelled. *)
Definition fail_with (err : GoError) : Seen :=
  {| set_error := Some err; emitted := []; returned := true;
     cancelled := false |}.

(** [Run] has set the error [err], emitted nothing, and returned. *)
Definition failed_with (err : GoError) (seen : Seen) : Prop :=
  set_error seen = Some err /\ emitted seen = [] /\ returned seen = true.

(** [for v := range out { re.Emit(v) }]: [Run] is the consumer of the
    channel; it emits what it receives and returns at the end of the
    stream. *)
Definition range_emit {P Call : Type} (w : World P Fs.ListRes Call) : Seen :=
  {| set_error := None; emitted := received w; returned := eos w;
     cancelled := ctx_done w |}.

(** filestore.go:54-82, under a schedule of the producer it starts, of the
    context and of its own loop; [None] when the schedule cannot be
    followed. *)
Definition lsFileStore_Run (g : IpfsNode + GoError) (args : list string)
    (sched : list Label) : option Seen :=
  match getFilestore g with
  | (_, _, Some err) => Some (fail_with err)
  | (_, None, None) => None
  | (_, Some fs, None) =>
      if Nat.ltb 0 (List.length args) then
        option_map range_emit
          (run (perKeyActionToChan (List fs)) sched (start (PKRange args)))
      else
        match ListAll fs with
        | inr err => Some (fail_with err)
        | inl g0 =>
            option_map range_emit
              (run (listResToChan next) sched (start (LAPoll G g0)))
        end
  end.

(** *** filestore.go:182-190, [verifyFileStore.Marshalers[Text]]

    The marshaler is called on each value of the output; the value is
    taken to be a ListRes, as the type assertion of line 184 demands.
    [Status_eqb] is [==] on status codes, [Status_Format] the [Format]
    method of a status. *)
Variable Status_eqb : Status -> Status -> bool.
Variable Status_Format : Status -> string.
Variable FormatLong : Fs.ListRes -> string.

Definition is_other_error (r : Fs.ListRes) : bool :=
  Status_eqb (Fs.ListRes_Status r) StatusOtherError.

Definition verify_line (r : Fs.ListRes) : Event :=
  Stdout (Status_Format (Fs.ListRes_Status r) ++ " " ++ FormatLong r
          ++ newline).

Definition verifyFileStore_Text (r : Fs.ListRes) : list Event :=
  ((if is_other_error r then [Stderr (Fs.ErrorMsg r ++ newline)] else [])
   ++ [verify_line r])%list.

End Model.
End FsRun.

(* ================================================================== *)
(** ** What the producers are expected to put on their channels *)

Section Expected.
Import Chan Producers.
Context `{Cmds} `{Filestore}.

(** *** [listResToChan] *)

(** The results of up to [n] polls of [next] from [g], stopping before a
    poll that yields nil, and the state the closure is left in. *)
Fixpoint polled {G : Type} (next : G -> option Fs.ListRes * G) (n : nat)
    (g : G) : list Fs.ListRes * G :=
  match n with
  | O => ([], g)
  | S n' =>
      match next g with
      | (None, _) => ([], g)
      | (Some r, g') =>
          let (rs, g'') := polled next n' g' in (r :: rs, g'')
      end
  end.

(** Where [listResToChan] stands after [n] polls that yielded a result. *)
Definition listAll_at {G : Type} (next : G -> option Fs.ListRes * G)
    (g0 : G) (w : World (ListAll G) Fs.ListRes unit) : Prop :=
  exists n,
    List.length (fst (polled next n g0)) = n /\
    delivered w = fst (polled next n g0) /\
    match ctl w with
    | Running (LAPoll _ g) =>
        g = snd (polled next n g0) /\ calls w = repeat tt n
    | Running (LASelect _ v g) =>
        next (snd (polled next n g0)) = (Some v, g) /\
        calls w = repeat tt (S n)
    | Exited =>
        (ctx_done w = false ->
         fst (next (snd (polled next n g0))) = None) /\
        (calls w = repeat tt n \/ calls w = repeat tt (S n))
    end.

(** The schedule that lets a producer make [n] items with a consumer that
    takes each one at once, return, and the consumer see the end. *)
Definition lockstep_items (n : nat) : list Label :=
  (List.concat (repeat [Produce; Produce; Receive] n)
   ++ [Produce; Receive])%list.

(** *** The goroutine of [dupsFileStore] *)

Definition ref_of (c : Cid) : Fs.RefWrapper :=
  {| Fs.Ref := Cid_String c; Fs.Err := EmptyString |}.

Definition err_of (err : GoError) : Fs.RefWrapper :=
  {| Fs.Ref := EmptyString; Fs.Err := Error_text err |}.

(** The items due for the keys [ch]: a reference for each key the main
    blockstore has, up to the first key on which [Has] fails, and that
    failure. *)
Fixpoint dups_output (Has : Cid -> bool + GoError) (ch : list Cid)
  : list Fs.RefWrapper :=
  match ch with
  | [] => []
  | c :: ch' =>
      match Has c with
      | inr err => [err_of err]
      | inl true => ref_of c :: dups_output Has ch'
      | inl false => dups_output Has ch'
      end
  end.

(** The keys [Has] is asked about. *)
Fixpoint dups_asked (Has : Cid -> bool + GoError) (ch : list Cid)
  : list Cid :=
  match ch with
  | [] => []
  | c :: ch' =>
      match Has c with
      | inr _ => [c]
      | inl _ => c :: dups_asked Has ch'
      end
  end.

(** [Has] says yes. *)
Definition has_it (Has : Cid -> bool + GoError) (c : Cid) : bool :=
  match Has c with inl true => true | _ => false end.

(** [Has] does not fail. *)
Definition answers (Has : Cid -> bool + GoError) (c : Cid) : Prop :=
  exists b, Has c = inl b.

(** Where the goroutine of [dupsFileStore] stands: what is on the channel,
    the item in hand and the items due for the keys left make up the items
    due for all keys, and likewise for the keys asked about. *)
Definition dups_at (Has : Cid -> bool + GoError) (ch : list Cid)
    (w : World Dups Fs.RefWrapper Cid) : Prop :=
  match ctl w with
  | Running (DRange rest) =>
      (delivered w ++ dups_output Has rest)%list = dups_output Has ch /\
      (calls w ++ dups_asked Has rest)%list = dups_asked Has ch
  | Running (DSendErr v) =>
      (delivered w ++ [v])%list = dups_output Has ch /\
      calls w = dups_asked Has ch
  | Running (DSendRef v rest) =>
      (delivered w ++ v :: dups_output Has rest)%list = dups_output Has ch /\
      (calls w ++ dups_asked Has rest)%list = dups_asked Has ch
  | Running DReturn | Exited =>
      delivered w = dups_output Has ch /\ calls w = dups_asked Has ch
  end.

(** *** [perKeyActionToChan] *)

(** What a producer that has returned left behind: the results of all
    arguments, or, after a cancellation, the results of the arguments
    before an identifier whose action was called and whose result was
    dropped at the select. *)
Definition perKey_left (action : Cid -> Fs.ListRes) (args : list string)
    (w : World PerKey Fs.ListRes Cid) : Prop :=
  (delivered w = map (perKeyResult action) args /\
   calls w = decoded args) \/
  (ctx_done w = true /\
   exists before arg c after,
     args = (before ++ arg :: after)%list /\
     cid_Decode arg = inl c /\
     delivered w = map (perKeyResult action) before /\
     calls w = (decoded before ++ [c])%list).

(** The same, with the select still ahead. *)
Definition perKey_drops_at_identifier (action : Cid -> Fs.ListRes)
    (args : list string) (w : World PerKey Fs.ListRes Cid) : Prop :=
  perKey_at action args w /\
  match ctl w with
  | Running (PKSelect v rest) =>
      exists before arg c,
        args = (before ++ arg :: rest)%list /\
        cid_Decode arg = inl c /\ v = action c /\
        delivered w = map (perKeyResult action) before /\
        calls w = (decoded before ++ [c])%list
  | Running _ => True
  | Exited => perKey_left action args w
  end.

(** A schedule on which the producer only sends and the consumer only
    receives: no cancellation is needed to follow it. *)
Definition uncancelled (sched : list Label) : Prop :=
  Forall (fun l => l = Produce \/ l = Receive) sched.

End Expected.

Section Leading.
Context `{Cmds} `{Filestore}.

(** The results a response hands over before its first failing pull or
    its first value that is no ListRes. *)
Fixpoint leading (pulls : list (Fs.Value + GoError)) : list Fs.ListRes :=
  match pulls with
  | inl (Fs.VListRes r) :: rest => r :: leading rest
  | _ => []
  end.

(** A line on one of the standard streams. *)
Definition is_line (e : Event) : bool := is_Stdout e || is_Stderr e.

End Leading.


(* ================================================================== *)
(** ** A small concrete node, to run the definitions on *)

Module Sample.

#[export] Instance cmds : Cmds := {
  ErrorType := Z;
  ErrNormal := 0%Z;
  ErrRcvdError_text := "received command error";
  Reader := string
}.

(** A reader, and responses that hold it: one that declares no length and
    one that declares 9 MiB. *)
Definition data : @Reader cmds := "data".

Definition unsized : @Cat.Response cmds :=
  {| Cat.Length := 0; Cat.Next := inl (Cat.VReader data);
     Cat.Error := None; Cat.Copy := None |}.

Definition nine_MiB : @Cat.Response cmds :=
  {| Cat.Length := 9 * 1024 * 1024; Cat.Next := inl (Cat.VReader data);
     Cat.Error := None; Cat.Copy := None |}.

(** Identifiers are the strings that start with [Qm]. *)
Definition decode (arg : string) : string + GoError :=
  if String.prefix "Qm" arg then inl arg
  else inr (OtherError "selected encoding not supported").

#[export] Instance filestore : Filestore := {
  Cid := string;
  cid_Decode := decode;
  Cid_String := fun c => c;
  Status := Z;
  StatusOtherError := 20%Z;
  Entry := Z;
  zero_Entry := 0%Z
}.

(** Readers are given by their declared size. *)
Definition lookup (fpath : string) : Z + GoError :=
  if (fpath =? "p1")%string then inl 10%Z
  else if (fpath =? "p2")%string then inl 20%Z
  else if (fpath =? "huge")%string then inl (2 ^ 63)%Z
  else inr (OtherError "no link by that name").

#[export] Instance unixfs : Cat.Unixfs := {
  DagReader := Z;
  Size := fun r => r;
  coreunix_Cat := lookup
}.

Definition readers_of (sizes : list Z) : list (@Cat.DagReader unixfs) :=
  sizes.

Definition ok (size : Z) : Fs.ListRes :=
  {| Fs.ListRes_Status := 0%Z; Fs.ErrorMsg := EmptyString;
     Fs.ListRes_Entry := size |}.

Definition failed (msg : string) : Fs.ListRes :=
  {| Fs.ListRes_Status := 20%Z; Fs.ErrorMsg := msg; Fs.ListRes_Entry := 0%Z |}.

(** [filestore.List] on the sample store: every object has 7 bytes. *)
Definition list_action (c : @Cid filestore) : Fs.ListRes := ok 7.

(** A [next] closure over the entries still to list. *)
Definition next_of (g : list Fs.ListRes)
  : option Fs.ListRes * list Fs.ListRes :=
  match g with
  | [] => (None, [])
  | r :: g' => (Some r, g')
  end.

(** The main blockstore: it has [QmA], and fails on [QmBroken]. *)
Definition has (c : @Cid filestore) : bool + GoError :=
  if (c =? "QmBroken")%string then inr (OtherError "leveldb: closed")
  else inl (c =? "QmA")%string.

Definition format_long (r : Fs.ListRes) : string :=
  if (Fs.ListRes_Entry r =? 7)%Z then "QmA 7 /tmp/a 0" else "QmB 0 /tmp/b 0".

(** Four entries that list and one whose backing file is gone. *)
Definition batch : list Fs.ListRes :=
  [ok 7; ok 7; failed "QmX: no such file"; ok 7; ok 7].

(** A listing of [batch] that ends cleanly, and one that the remote side
    breaks off with an error after the first entry. *)
Definition listing : Fs.Response :=
  {| Fs.pulls := (map pulled batch ++ [inr io_EOF])%list;
     Fs.Error := None |}.

Definition broken_off : Fs.Response :=
  {| Fs.pulls :=
       (map pulled [ok 7] ++ inr ErrRcvdError :: [pulled (ok 7)])%list;
     Fs.Error := Some {| Message := "merkledag: not found"; Code := 1%Z |} |}.

(** Arguments of [filestore ls]: an identifier, a string that is none, an
    identifier. *)
Definition mixed_args : list string := ["QmA"; "bad"; "QmB"].

(** [listResToChan] over three entries, and the same producer stopped at
    its select with the context already cancelled. *)
Definition three_entries :
    Chan.World (Producers.ListAll (list Fs.ListRes)) Fs.ListRes unit :=
  Chan.start (Producers.LAPoll _ [ok 1; ok 2; ok 3]).

Definition cancelled_at_select :
    Chan.World (Producers.ListAll (list Fs.ListRes)) Fs.ListRes unit :=
  {| Chan.ctl := Chan.Running (Producers.LASelect _ (ok 1) [ok 2; ok 3]);
     Chan.buf := []; Chan.closes := 0; Chan.ctx_done := true;
     Chan.received := []; Chan.eos := false; Chan.calls := [tt] |}.

(** The keys of the filestore, for [dupsFileStore]. *)
Definition all_keys : list (@Cid filestore) := ["QmA"; "QmBroken"; "QmC"].

(** The key on which the main blockstore fails, the key before it and the
    key after it. *)
Definition broken_before : @Cid filestore := "QmA".
Definition broken_key : @Cid filestore := "QmBroken".
Definition broken_after : @Cid filestore := "QmC".

(** A response that declares 2^63 bytes. *)
Definition signed_overflow : @Cat.Response cmds :=
  {| Cat.Length := 2 ^ 63; Cat.Next := inl (Cat.VReader data);
     Cat.Error := None; Cat.Copy := None |}.

(** Nodes are given by their name; the node called plain has no
    filestore, every other node has the filestore of its name. *)
Definition node_filestore (n : string) : option string :=
  if (n =? "plain")%string then None else Some n.

(** [filestore.ListAll] on the sample store: two entries. *)
Definition list_all (fs : string) : list Fs.ListRes + GoError :=
  inl [ok 1; ok 2].

Definition list_one (fs : string) (c : @Cid filestore) : Fs.ListRes :=
  ok 7.

(** The status codes print as ERROR for StatusOtherError and as ok. *)
Definition status_format (s : @Status filestore) : string :=
  if (s =? 20)%Z then "ERROR" else "ok".

(** [==] on the status codes of the sample store. *)
Definition status_eqb (a b : @Status filestore) : bool := (a =? b)%Z.

Definition what_listing_emits : list Fs.ListRes :=
  [ok 7; failed "bad: selected encoding not supported"; ok 7].

(** A response that hands over a soft failure and then a value that is no
    ListRes. *)
Definition foreign_value : Fs.Response :=
  {| Fs.pulls :=
       (map pulled [failed "QmX: no such file"]
        ++ inl Fs.VForeign :: [pulled (ok 7)])%list;
     Fs.Error := None |}.


End Sample.

(* ================================================================== *)
(** * Properties of cat.go *)

Section CatPostRun.
Context `{Cmds}.
Import Cat.

Local Open Scope Z_scope.

Lemma plan_direct (n : Z) :
  plan n = DirectCopy <-> 0 < n < progressBarMinSize.
Proof.
  unfold plan.
  destruct (0 <? n) eqn:Hpos; destruct (n <? progressBarMinSize) eqn:Hlt;
    simpl; split; intros Hx; try discriminate; try reflexivity;
    try (apply Z.ltb_lt in Hpos); try (apply Z.ltb_lt in Hlt);
    try (apply Z.ltb_ge in Hpos); try (apply Z.ltb_ge in Hlt); lia.
Qed.

Lemma plan_progress (n : Z) :
  plan n = ProgressPath <-> n <= 0 \/ progressBarMinSize <= n.
Proof.
  destruct (plan n) eqn:Hp.
  - apply plan_direct in Hp. split; [discriminate | lia].
  - split; [intros _ | reflexivity].
    destruct (Z_le_gt_dec n 0) as [Hle | Hgt]; [now left | right].
    destruct (Z_lt_ge_dec n progressBarMinSize) as [Hlt | Hge]; [| lia].
    assert (Hd : plan n = DirectCopy) by (apply plan_direct; lia).
    congruence.
Qed.

Lemma direct_copy_shape (res : Response) :
  existsb is_CopyAll (direct_copy res) = true /\
  existsb is_progress (direct_copy res) = false.
Proof. unfold direct_copy. destruct (Copy res); split; reflexivity. Qed.

Lemma progress_path_never_copies (res : Response) :
  existsb is_CopyAll (progress_path res) = false.
Proof.
  unfold progress_path.
  destruct (Next res) as [[r | ty] | e]; try reflexivity.
  destruct (is_ErrRcvdError e); [destruct (Error res) |]; reflexivity.
Qed.

(** C1 (as amended): with a declared length of 0 the test of cat.go:72
    fails on its first conjunct, so the direct copy is not selected: the
    goroutine pulls one value and, when that is a reader, starts a progress
    bar for a total of 0 and emits the progress view of the reader. *)
Theorem zero_length_takes_progress_path (res : Response) :
  Length res = 0 ->
  plan (Length res) = ProgressPath /\
  CatCmd_PostRun res = progress_path res /\
  existsb is_CopyAll (CatCmd_PostRun res) = false /\
  (forall r, Next res = inl (VReader r) ->
     CatCmd_PostRun res = [BarStart 0; EmitProgress r 0; Close]).
Proof.
  intros Hlen.
  assert (Hplan : plan (Length res) = ProgressPath)
    by (rewrite Hlen; reflexivity).
  assert (Hrun : CatCmd_PostRun res = progress_path res)
    by (unfold CatCmd_PostRun; now rewrite Hplan).
  repeat split; trivial.
  - rewrite Hrun. apply progress_path_never_copies.
  - intros r Hnext. rewrite Hrun. unfold progress_path.
    rewrite Hnext, Hlen. reflexivity.
Qed.

(** C2: for a declared length above 0 the direct copy
    is selected exactly below 8 * 1024 * 1024 bytes and the progress path
    exactly from there on; the direct copy is [cmds.Copy] with no progress
    view, the progress path never copies and wraps the reader it pulls.
    7 MiB is copied directly, 9 MiB goes through the progress view. *)
Theorem threshold_selects_presentation (res : Response) :
  0 < Length res ->
  (plan (Length res) = DirectCopy <-> Length res < 8 * 1024 * 1024) /\
  (plan (Length res) = ProgressPath <-> 8 * 1024 * 1024 <= Length res) /\
  (Length res < 8 * 1024 * 1024 ->
     CatCmd_PostRun res = direct_copy res /\
     existsb is_CopyAll (CatCmd_PostRun res) = true /\
     existsb is_progress (CatCmd_PostRun res) = false) /\
  (8 * 1024 * 1024 <= Length res ->
     CatCmd_PostRun res = progress_path res /\
     existsb is_CopyAll (CatCmd_PostRun res) = false /\
     forall r, Next res = inl (VReader r) ->
       CatCmd_PostRun res =
         [BarStart (int64 (Length res));
          EmitProgress r (int64 (Length res)); Close]) /\
  plan (7 * 1024 * 1024) = DirectCopy /\
  plan (9 * 1024 * 1024) = ProgressPath.
Proof.
  intros Hrange.
  assert (Hthr : progressBarMinSize = 8 * 1024 * 1024) by reflexivity.
  split; [| split; [| split; [| split; [| split; reflexivity]]]].
  - rewrite plan_direct. lia.
  - rewrite plan_progress. lia.
  - intros Hsmall.
    assert (Hplan : plan (Length res) = DirectCopy)
      by (apply plan_direct; lia).
    unfold CatCmd_PostRun. rewrite Hplan.
    split; [reflexivity | apply direct_copy_shape].
  - intros Hbig.
    assert (Hplan : plan (Length res) = ProgressPath)
      by (apply plan_progress; lia).
    unfold CatCmd_PostRun. rewrite Hplan.
    split; [reflexivity |].
    split; [apply progress_path_never_copies |].
    intros r Hnext. unfold progress_path. now rewrite Hnext.
Qed.

End CatPostRun.

Section CatAssembly.
Context `{Cmds} `{Cat.Unixfs}.
Import Cat.

Local Open Scope Z_scope.
Local Open Scope list_scope.

Lemma uint64_add_l (a b : Z) : uint64 (a + uint64 b) = uint64 (a + b).
Proof. unfold uint64. now rewrite Z.add_mod_idemp_r. Qed.

Lemma uint64_add_assoc (a b c : Z) :
  uint64 (uint64 (a + b) + c) = uint64 (a + (b + c)).
Proof.
  unfold uint64. rewrite Z.add_mod_idemp_l by lia. now rewrite Z.add_assoc.
Qed.

Lemma uint64_idem (a : Z) : uint64 (uint64 a) = uint64 a.
Proof. unfold uint64. apply Z.mod_mod. lia. Qed.

(** The loop on paths that all resolve. *)
Lemma cat_loop_all_found (paths : list string) :
  forall (found rs : list DagReader) (acc : Z) (seen : list string),
    map coreunix_Cat paths = map inl found ->
    uint64 acc = acc ->
    cat_loop paths rs acc seen =
      {| readers := Some (rs ++ found);
         length := uint64 (acc + declared_total found);
         err := None;
         looked_up := seen ++ paths |}.
Proof.
  induction paths as [| fpath paths IH]; intros found rs acc seen Hmap Hacc.
  - destruct found; [| discriminate]. simpl.
    rewrite Z.add_0_r, Hacc, !app_nil_r. reflexivity.
  - destruct found as [| read found]; [discriminate |].
    simpl in Hmap. injection Hmap as Hhead Htail.
    simpl. rewrite Hhead.
    rewrite (IH found _ _ _ Htail (uint64_idem _)).
    f_equal.
    + now rewrite <- app_assoc.
    + rewrite uint64_add_l. apply uint64_add_assoc.
    + now rewrite <- app_assoc.
Qed.

(** The loop up to the first path that fails. *)
Lemma cat_loop_first_failure (before : list string) :
  forall (found rs : list DagReader) (acc : Z) (seen : list string)
         (bad : string) (after : list string) (e : GoError),
    map coreunix_Cat before = map inl found ->
    coreunix_Cat bad = inr e ->
    cat_loop (before ++ bad :: after) rs acc seen =
      {| readers := None; length := 0; err := Some e;
         looked_up := seen ++ before ++ [bad] |}.
Proof.
  induction before as [| fpath before IH];
    intros found rs acc seen bad after e Hmap Hbad.
  - simpl. now rewrite Hbad.
  - destruct found as [| read found]; [discriminate |].
    simpl in Hmap. injection Hmap as Hhead Htail.
    simpl. rewrite Hhead.
    rewrite (IH found _ _ _ bad after e Htail Hbad).
    now rewrite <- app_assoc.
Qed.

Lemma declared_total_nonneg (rs : list DagReader) :
  Forall (fun r => 0 <= Size r) rs -> 0 <= declared_total rs.
Proof.
  induction 1 as [| r rs Hr _ IH]; simpl; lia.
Qed.

(** C6 (as amended): when every path resolves, [cat] returns the readers
    in the order of the paths, no error, and as length the sum of their
    declared sizes reduced modulo 2^64, the length being a uint64; that is
    the exact sum whenever the sum is below 2^64. *)
Theorem cat_returns_readers_and_wrapped_total
    (paths : list string) (found : list DagReader) :
  map coreunix_Cat paths = map inl found ->
  readers (cat paths) = Some found /\
  err (cat paths) = None /\
  looked_up (cat paths) = paths /\
  length (cat paths) = declared_total found mod 2 ^ 64 /\
  (Forall (fun r => 0 <= Size r) found ->
   declared_total found < 2 ^ 64 ->
   length (cat paths) = declared_total found).
Proof.
  intros Hmap. unfold cat.
  assert (Hcat : cat_loop paths [] (uint64 0) [] =
                 {| readers := Some found;
                    length := declared_total found mod 2 ^ 64;
                    err := None; looked_up := paths |}).
  { now rewrite (cat_loop_all_found paths found [] (uint64 0) [] Hmap
                     (uint64_idem 0)). }
  rewrite Hcat. simpl. repeat split.
  intros Hpos Hsmall. apply Z.mod_small.
  split; [now apply declared_total_nonneg | assumption].
Qed.

(** C7: when the lookup of a path fails after any number of successful
    lookups, [cat] stops at that path and returns its error, a nil slice of
    readers and the length 0; the paths after it are not looked up. *)
Theorem cat_fails_fast
    (before : list string) (found : list DagReader)
    (bad : string) (after : list string) (e : GoError) :
  map coreunix_Cat before = map inl found ->
  coreunix_Cat bad = inr e ->
  err (cat (before ++ bad :: after)) = Some e /\
  readers (cat (before ++ bad :: after)) = None /\
  length (cat (before ++ bad :: after)) = 0 /\
  looked_up (cat (before ++ bad :: after)) = before ++ [bad].
Proof.
  intros Hmap Hbad. unfold cat.
  rewrite (cat_loop_first_failure before found [] (uint64 0) [] bad after e
             Hmap Hbad).
  repeat split.
Qed.

End CatAssembly.

(* ================================================================== *)
(** * Properties of the response bridge of [filestore ls] *)

Section LsBridge.
Context `{Cmds} `{Filestore}.
Variable FormatLong : Fs.ListRes -> string.
Import Fs.

Local Open Scope list_scope.

(** The loop over a run of results: each one is shown, the flag collects
    the soft failures, and the loop goes on with what follows. *)
Lemma pull_loop_results (rs : list ListRes) :
  forall (tail : list (Value + GoError)) (flag : bool) (shown : list Event),
    pull_loop FormatLong (map pulled rs ++ tail) flag shown =
    pull_loop FormatLong tail (flag || existsb soft rs)
              (shown ++ map (line_of FormatLong) rs).
Proof.
  induction rs as [| r rs IH]; intros tail flag shown.
  - simpl. now rewrite orb_false_r, app_nil_r.
  - change (map pulled (r :: rs) ++ tail)
      with (inl (VListRes r) :: (map pulled rs ++ tail)).
    change (existsb soft (r :: rs)) with (soft r || existsb soft rs).
    change (map (line_of FormatLong) (r :: rs))
      with (line_of FormatLong r :: map (line_of FormatLong) rs).
    cbn [pull_loop]. unfold line_of, soft.
    destruct (ErrorMsg r =? EmptyString)%string; cbn [negb]; rewrite IH;
      rewrite <- app_assoc; cbn [app orb].
    + reflexivity.
    + now rewrite orb_true_r.
Qed.

Lemma pull_loop_until_error (rs : list ListRes) (e : GoError)
    (tail : list (Value + GoError)) :
  pull_loop FormatLong (map pulled rs ++ inr e :: tail) false [] =
    {| printed := map (line_of FormatLong) rs;
       errors := existsb soft rs;
       err := Some e;
       unread := tail |}.
Proof. rewrite pull_loop_results. reflexivity. Qed.

(** C8: on a stream of results that ends cleanly, every result with a
    non-empty error message gets its diagnostic line on stderr and every
    other one its record on stdout, in stream order and without stopping;
    the flag is set exactly when some result was a soft failure, and then
    the error "errors while displaying some entries" is set with ErrNormal
    after all the lines, just before the emitter is closed. *)
Theorem soft_failures_are_aggregated
    (res : Response) (rs : list ListRes) (e : GoError)
    (tail : list (Value + GoError)) :
  pulls res = map pulled rs ++ inr e :: tail ->
  clean_end e = true ->
  errors (pull_loop FormatLong (pulls res) false []) = existsb soft rs /\
  lsFileStore_PostRun FormatLong res =
    map (line_of FormatLong) rs ++ aggregate (existsb soft rs) ++ [Close] /\
  (existsb soft rs = true ->
   lsFileStore_PostRun FormatLong res =
     map (line_of FormatLong) rs ++
     [SetError (EString "errors while displaying some entries") ErrNormal;
      Close]) /\
  (existsb soft rs = false ->
   lsFileStore_PostRun FormatLong res =
     map (line_of FormatLong) rs ++ [Close]).
Proof.
  intros Hpulls Hclean.
  assert (Hrun : lsFileStore_PostRun FormatLong res =
                 map (line_of FormatLong) rs ++
                 aggregate (existsb soft rs) ++ [Close]).
  { unfold lsFileStore_PostRun. rewrite Hpulls, pull_loop_until_error.
    simpl. unfold classify. rewrite Hclean. reflexivity. }
  split; [now rewrite Hpulls, pull_loop_until_error |].
  split; [exact Hrun |].
  split; intros Hflag; rewrite Hrun, Hflag; reflexivity.
Qed.


End LsBridge.

(* ================================================================== *)
(** * Properties of the channel machine, for any goroutine body *)

Section ChannelFacts.
Import Chan.
Context {P Item Call : Type}.
Variable body : P -> Op P Item Call.

Local Open Scope list_scope.

Lemma run_app (s1 s2 : list Label) :
  forall w : World P Item Call,
    run body (s1 ++ s2) w =
    match run body s1 w with
    | Some w' => run body s2 w'
    | None => None
    end.
Proof.
  induction s1 as [| l s1 IH]; intros w; simpl; [reflexivity |].
  destruct (step body l w); [apply IH | reflexivity].
Qed.

(** A property kept by every move holds after every schedule. *)
Lemma run_invariant (I : World P Item Call -> Prop) :
  (forall l w w', I w -> step body l w = Some w' -> I w') ->
  forall sched w w', I w -> run body sched w = Some w' -> I w'.
Proof.
  intros Hstep. induction sched as [| l sched IH]; intros w w' Hw Hrun.
  - simpl in Hrun. now injection Hrun as <-.
  - simpl in Hrun. destruct (step body l w) as [w1 |] eqn:Hs;
      [| discriminate].
    eapply IH; [| exact Hrun]. eapply Hstep; eassumption.
Qed.

Lemma send_inv (v : Item) (k : P) (w w' : World P Item Call) :
  send v k w = Some w' ->
  ctl w' = Running k /\ buf w' = buf w ++ [v] /\ closes w' = closes w /\
  ctx_done w' = ctx_done w /\ received w' = received w /\
  eos w' = eos w /\ calls w' = calls w /\
  (List.length (buf w) < capacity)%nat.
Proof.
  unfold send. destruct (Nat.ltb _ _) eqn:Hroom; [| discriminate].
  intros Hs. injection Hs as <-. simpl.
  apply Nat.ltb_lt in Hroom. repeat split; assumption.
Qed.

(** The moves of the goroutine either keep it running or make it return
    through the deferred close. *)
Lemma step_closed_iff_exited (l : Label) (w w' : World P Item Call) :
  closed_iff_exited w -> step body l w = Some w' -> closed_iff_exited w'.
Proof.
  unfold closed_iff_exited, exited. intros Hw Hs.
  destruct l; simpl in Hs.
  - destruct (ctl w) as [p |] eqn:Hctl; [| discriminate].
    destruct (body p) as [c k | k | v k | v k |].
    + injection Hs as <-. simpl. exact Hw.
    + injection Hs as <-. simpl. exact Hw.
    + apply send_inv in Hs as (-> & _ & -> & _). exact Hw.
    + apply send_inv in Hs as (-> & _ & -> & _). exact Hw.
    + injection Hs as <-. simpl. now rewrite Hw.
  - destruct (ctl w) as [p |] eqn:Hctl; [| discriminate].
    destruct (body p) as [c k | k | v k | v k |]; try discriminate.
    destruct (ctx_done w); [| discriminate].
    injection Hs as <-. simpl. now rewrite Hw.
  - injection Hs as <-. simpl. exact Hw.
  - destruct (eos w); [discriminate |].
    destruct (buf w) as [| v rest].
    + destruct (Nat.ltb 0 (closes w)); [| discriminate].
      injection Hs as <-. simpl. exact Hw.
    + injection Hs as <-. simpl. exact Hw.
Qed.

Lemma start_closed_iff_exited (p : P) :
  closed_iff_exited (start (Item := Item) (Call := Call) p).
Proof. reflexivity. Qed.

Lemma run_closed_iff_exited (sched : list Label) (p : P)
    (w : World P Item Call) :
  run body sched (start p) = Some w -> closed_iff_exited w.
Proof.
  apply (run_invariant (@closed_iff_exited P Item Call)).
  - intros l w0 w1. apply step_closed_iff_exited.
  - apply start_closed_iff_exited.
Qed.

Lemma step_eos_sound (l : Label) (w w' : World P Item Call) :
  eos_sound w -> step body l w = Some w' -> eos_sound w'.
Proof.
  intros [Hc He] Hs.
  split; [eapply step_closed_iff_exited; eassumption |].
  unfold closed_iff_exited, exited in *.
  destruct l; simpl in Hs.
  - destruct (ctl w) as [p |] eqn:Hctl; [| discriminate].
    assert (Hopen : eos w = false).
    { destruct (eos w); [| reflexivity].
      destruct (He eq_refl) as [Hx _]. discriminate. }
    destruct (body p) as [c k | k | v k | v k |].
    + injection Hs as <-. simpl. congruence.
    + injection Hs as <-. simpl. congruence.
    + apply send_inv in Hs as (_ & _ & _ & _ & _ & -> & _). congruence.
    + apply send_inv in Hs as (_ & _ & _ & _ & _ & -> & _). congruence.
    + injection Hs as <-. simpl. congruence.
  - destruct (ctl w) as [p |] eqn:Hctl; [| discriminate].
    assert (Hopen : eos w = false).
    { destruct (eos w); [| reflexivity].
      destruct (He eq_refl) as [Hx _]. discriminate. }
    destruct (body p) as [c k | k | v k | v k |]; try discriminate.
    destruct (ctx_done w); [| discriminate].
    injection Hs as <-. simpl. congruence.
  - injection Hs as <-. simpl. exact He.
  - destruct (eos w); [discriminate |].
    destruct (buf w) as [| v rest].
    + destruct (Nat.ltb 0 (closes w)) eqn:Hcl; [| discriminate].
      injection Hs as <-. simpl. intros _. split; [| reflexivity].
      destruct (ctl w); [| reflexivity].
      rewrite Hc in Hcl. discriminate.
    + injection Hs as <-. simpl. discriminate.
Qed.

Lemma run_eos_sound (sched : list Label) (p : P) (w : World P Item Call) :
  run body sched (start p) = Some w -> eos_sound w.
Proof.
  apply (run_invariant (@eos_sound P Item Call)).
  - intros l w0 w1. apply step_eos_sound.
  - split; [reflexivity | discriminate].
Qed.

(** A goroutine that has returned does nothing more: only the context and
    the consumer still move. *)
Lemma step_after_exit (l : Label) (w w' : World P Item Call) :
  ctl w = Exited -> step body l w = Some w' ->
  ctl w' = Exited /\ delivered w' = delivered w /\
  calls w' = calls w /\ closes w' = closes w.
Proof.
  intros Hx Hs. unfold delivered.
  destruct l; simpl in Hs; rewrite ?Hx in Hs; try discriminate.
  - injection Hs as <-. simpl. repeat split; assumption.
  - destruct (eos w); [discriminate |].
    destruct (buf w) as [| v rest].
    + destruct (Nat.ltb 0 (closes w)); [| discriminate].
      injection Hs as <-. simpl. repeat split; assumption.
    + injection Hs as <-. simpl. rewrite <- app_assoc.
      repeat split; assumption.
Qed.

Lemma run_after_exit (sched : list Label) :
  forall w w' : World P Item Call,
    ctl w = Exited -> run body sched w = Some w' ->
    ctl w' = Exited /\ delivered w' = delivered w /\
    calls w' = calls w /\ closes w' = closes w.
Proof.
  induction sched as [| l sched IH]; intros w w' Hx Hrun; simpl in Hrun.
  - injection Hrun as <-. repeat split; assumption.
  - destruct (step body l w) as [w1 |] eqn:Hs; [| discriminate].
    destruct (step_after_exit l w w1 Hx Hs) as (Hx1 & Hd & Hc & Hn).
    destruct (IH w1 w' Hx1 Hrun) as (Hx2 & Hd2 & Hc2 & Hn2).
    repeat split; congruence.
Qed.

(** Receiving from a closed channel drains it and then ends the loop. *)
Lemma drain_closed (n : nat) :
  forall w : World P Item Call,
    List.length (buf w) = n -> (0 < closes w)%nat -> eos w = false ->
    exists w',
      run body (repeat Receive (S n)) w = Some w' /\
      eos w' = true /\ received w' = delivered w /\ buf w' = [] /\
      ctl w' = ctl w.
Proof.
  induction n as [| n IH]; intros w Hlen Hcl Hopen.
  - destruct (buf w) as [| v rest] eqn:Hbuf; [| discriminate].
    simpl. rewrite Hopen, Hbuf.
    apply Nat.ltb_lt in Hcl. rewrite Hcl.
    eexists. split; [reflexivity |]. simpl. unfold delivered.
    rewrite Hbuf, app_nil_r. repeat split.
  - destruct (buf w) as [| v rest] eqn:Hbuf; [discriminate |].
    simpl in Hlen. injection Hlen as Hlen.
    change (repeat Receive (S (S n))) with (Receive :: repeat Receive (S n)).
    cbn [run step]. rewrite Hopen, Hbuf.
    edestruct (IH {| ctl := ctl w; buf := rest; closes := closes w;
                     ctx_done := ctx_done w;
                     received := received w ++ [v]; eos := false;
                     calls := calls w |})
      as (w' & Hrun & He & Hr & Hb & Hc); try eassumption; try reflexivity.
    exists w'. split; [exact Hrun |].
    unfold delivered in *. simpl in Hr, Hc.
    rewrite Hbuf, Hr, <- app_assoc. repeat split; assumption.
Qed.

Lemma exited_consumer_sees_end (w : World P Item Call) :
  closed_iff_exited w -> consumer_sees_end body w.
Proof.
  intros Hc Hx Hopen. unfold closed_iff_exited in Hc. rewrite Hx in Hc.
  destruct (drain_closed (List.length (buf w)) w eq_refl) as
    (w' & Hrun & He & Hr & Hb & _); [lia | assumption |].
  exists w'. repeat split; assumption.
Qed.

End ChannelFacts.

(* ================================================================== *)
(** * Properties of [perKeyActionToChan] *)

Section PerKeyFacts.
Import Chan Producers Fs.
Context `{Cmds} `{Filestore}.
Variable action : Cid -> ListRes.

Local Open Scope list_scope.

Local Abbreviation body := (perKeyActionToChan action).
Local Abbreviation result := (perKeyResult action).

Lemma decoded_app (a b : list string) :
  decoded (a ++ b) = decoded a ++ decoded b.
Proof.
  induction a as [| x a IH]; simpl; [reflexivity |].
  destruct (cid_Decode x); simpl; now rewrite IH.
Qed.

Lemma decoded_snoc_ok (pre : list string) (arg : string) (c : Cid) :
  cid_Decode arg = inl c -> decoded (pre ++ [arg]) = decoded pre ++ [c].
Proof. intros Hd. rewrite decoded_app. simpl. now rewrite Hd. Qed.

Lemma decoded_snoc_bad (pre : list string) (arg : string) (e : GoError) :
  cid_Decode arg = inr e -> decoded (pre ++ [arg]) = decoded pre.
Proof.
  intros Hd. rewrite decoded_app. simpl. rewrite Hd. apply app_nil_r.
Qed.

Lemma result_ok (arg : string) (c : Cid) :
  cid_Decode arg = inl c -> result arg = action c.
Proof. intros Hd. unfold perKeyResult. now rewrite Hd. Qed.

Lemma result_bad (arg : string) (e : GoError) :
  cid_Decode arg = inr e -> result arg = parse_failure arg e.
Proof. intros Hd. unfold perKeyResult. now rewrite Hd. Qed.

Lemma snoc_cons {A : Type} (pre : list A) (x : A) (rest : list A) :
  pre ++ x :: rest = (pre ++ [x]) ++ rest.
Proof. now rewrite <- app_assoc. Qed.

(** A send puts the pending result of [arg] behind those of [pre]. *)
Lemma delivered_after_send (pre : list string) (arg : string) (v : ListRes)
    (k : PerKey) (w w' : World PerKey ListRes Cid) :
  send v k w = Some w' ->
  delivered w = map result pre -> result arg = v ->
  delivered w' = map result (pre ++ [arg]) /\
  ctl w' = Running k /\ calls w' = calls w.
Proof.
  intros Hs Hd Hv.
  apply send_inv in Hs as (Hctl & Hbuf & _ & _ & Hrec & _ & Hcalls & _).
  unfold delivered in *. rewrite Hrec, Hbuf, app_assoc, Hd, map_app.
  simpl. rewrite Hv. repeat split; assumption.
Qed.

Lemma step_perKey_at (args : list string) (l : Label)
    (w w' : World PerKey ListRes Cid) :
  perKey_at action args w -> step body l w = Some w' ->
  perKey_at action args w'.
Proof.
  unfold perKey_at. intros Hw Hs.
  destruct l; simpl in Hs.
  - (* the producer moves *)
    destruct (ctl w) as [[[| arg rest] | v rest | v rest] |] eqn:Hctl;
      simpl in Hs; try discriminate.
    + injection Hs as <-. simpl.
      destruct Hw as (pre & Hargs & Hd & Hc).
      exists pre, []. repeat split; auto.
    + destruct Hw as (pre & Hargs & Hd & Hc).
      destruct (cid_Decode arg) as [c | e] eqn:Hdec;
        injection Hs as <-; simpl.
      * exists pre, arg, c. unfold delivered in *. simpl.
        rewrite (decoded_snoc_ok pre arg c Hdec), Hc. repeat split; auto.
      * exists pre, arg, e. unfold delivered in *. simpl.
        repeat split; auto.
    + destruct Hw as (pre & arg & e & Hargs & Hdec & Hv & Hd & Hc).
      destruct (delivered_after_send pre arg v _ w w' Hs Hd)
        as (Hd' & Hctl' & Hc'); [rewrite Hv; now apply result_bad |].
      rewrite Hctl'. exists (pre ++ [arg]).
      rewrite Hd', Hc', Hc, (decoded_snoc_bad pre arg e Hdec).
      repeat split; auto. rewrite Hargs. apply snoc_cons.
    + destruct Hw as (pre & arg & c & Hargs & Hdec & Hv & Hd & Hc).
      destruct (delivered_after_send pre arg v _ w w' Hs Hd)
        as (Hd' & Hctl' & Hc'); [rewrite Hv; now apply result_ok |].
      rewrite Hctl'. exists (pre ++ [arg]).
      rewrite Hd', Hc', Hc. repeat split; auto.
      rewrite Hargs. apply snoc_cons.
  - (* the select takes the cancellation *)
    destruct (ctl w) as [[[| arg rest] | v rest | v rest] |] eqn:Hctl;
      simpl in Hs; try discriminate.
    + destruct (cid_Decode arg); discriminate.
    + destruct (ctx_done w) eqn:Hdone; [| discriminate].
      injection Hs as <-. simpl.
      destruct Hw as (pre & arg & c & Hargs & Hdec & Hv & Hd & Hc).
      exists pre, (arg :: rest). unfold delivered in *. simpl.
      rewrite Hdone. repeat split; auto; [discriminate |].
      right. exists arg, rest. split; auto.
  - (* the context is cancelled *)
    injection Hs as <-. simpl. unfold delivered in *. simpl.
    destruct (ctl w) as [[rest | v rest | v rest] |]; auto.
    destruct Hw as (pre & rest & Hargs & Hd & _ & Hc).
    exists pre, rest. repeat split; auto. discriminate.
  - (* the consumer moves *)
    destruct (eos w); [discriminate |].
    assert (Hsame : ctl w' = ctl w /\ delivered w' = delivered w /\
                    calls w' = calls w /\ ctx_done w' = ctx_done w).
    { unfold delivered. destruct (buf w) as [| v rest].
      - destruct (Nat.ltb 0 (closes w)); [| discriminate].
        injection Hs as <-. simpl. repeat split.
      - injection Hs as <-. simpl. rewrite <- app_assoc. repeat split. }
    destruct Hsame as (-> & -> & -> & ->). exact Hw.
Qed.

Lemma run_perKey_at (args : list string) (sched : list Label)
    (w : World PerKey ListRes Cid) :
  run body sched (start (PKRange args)) = Some w -> perKey_at action args w.
Proof.
  apply (run_invariant body (perKey_at action args)).
  - intros l w0 w1. apply step_perKey_at.
  - exists []. repeat split.
Qed.

(** One argument in lockstep: decode (and act), send, receive. *)
Lemma lockstep_one (arg : string) (rest : list string)
    (w : World PerKey ListRes Cid) :
  ctl w = Running (PKRange (arg :: rest)) -> buf w = [] -> eos w = false ->
  exists w',
    run body [Produce; Produce; Receive] w = Some w' /\
    ctl w' = Running (PKRange rest) /\ buf w' = [] /\ eos w' = false /\
    ctx_done w' = ctx_done w /\
    received w' = received w ++ [result arg].
Proof.
  intros Hctl Hbuf Hopen. unfold perKeyResult.
  destruct w as [c b n d r e cl]. simpl in *. subst c b e.
  destruct (cid_Decode arg) as [cid | err] eqn:Hdec;
    cbn [run step ctl]; cbn [perKeyActionToChan]; rewrite Hdec;
    cbn [run step ctl perKeyActionToChan send buf List.length app];
    (eexists; split; [reflexivity |]); simpl; repeat split.
Qed.

Lemma lockstep_all (args : list string) :
  forall w : World PerKey ListRes Cid,
    ctl w = Running (PKRange args) -> buf w = [] -> eos w = false ->
    exists w',
      run body (lockstep args) w = Some w' /\
      ctl w' = Exited /\ buf w' = [] /\ eos w' = true /\
      ctx_done w' = ctx_done w /\
      received w' = received w ++ map result args.
Proof.
  unfold lockstep.
  induction args as [| arg args IH]; intros w Hctl Hbuf Hopen.
  - destruct w as [c b n d r e cl]. simpl in *. subst c b e.
    eexists. split; [reflexivity |]. simpl.
    rewrite app_nil_r. repeat split.
  - destruct (lockstep_one arg args w Hctl Hbuf Hopen)
      as (w1 & Hrun1 & Hctl1 & Hbuf1 & Hopen1 & Hdone1 & Hrec1).
    destruct (IH w1 Hctl1 Hbuf1 Hopen1)
      as (w2 & Hrun2 & Hctl2 & Hbuf2 & Heos2 & Hdone2 & Hrec2).
    exists w2. split.
    + change (flat_map (fun _ : string => [Produce; Produce; Receive])
                       (arg :: args) ++ [Produce; Receive])
        with ([Produce; Produce; Receive] ++
              (flat_map (fun _ : string => [Produce; Produce; Receive]) args
               ++ [Produce; Receive])).
      rewrite run_app, Hrun1. exact Hrun2.
    + rewrite Hrec2, Hrec1, Hdone2, Hdone1, <- app_assoc.
      repeat split; assumption.
Qed.

End PerKeyFacts.

(* ================================================================== *)
(** * The producers: order, parse failures, cancellation, closing *)

Section ProducerClaims.
Import Chan Producers Fs.
Context `{Cmds} `{Filestore}.

Local Open Scope list_scope.

(** C3: [perKeyActionToChan] delivers the results of its arguments in the
    order of the arguments, one per argument, the action's result for an
    identifier and the synthetic error for a string that does not parse.
    Whatever the schedule, what is on the channel is the list of results of
    a prefix of the arguments; without cancellation a producer that has
    returned has delivered the results of all of them, and a consumer at
    the end of the stream has received exactly those; and there is a
    schedule on which this happens. *)
Theorem perKey_results_in_input_order
    (action : Cid -> ListRes) (args : list string) :
  (exists sched w,
     run (perKeyActionToChan action) sched (start (PKRange args)) = Some w /\
     ctx_done w = false /\ eos w = true /\
     received w = map (perKeyResult action) args) /\
  (forall sched w,
     run (perKeyActionToChan action) sched (start (PKRange args)) = Some w ->
     (exists pre rest,
        args = pre ++ rest /\
        delivered w = map (perKeyResult action) pre) /\
     (ctx_done w = false -> exited w = true ->
        delivered w = map (perKeyResult action) args) /\
     (ctx_done w = false -> eos w = true ->
        received w = map (perKeyResult action) args /\
        List.length (received w) = List.length args)).
Proof.
  split.
  - destruct (lockstep_all action args (start (PKRange args)))
      as (w & Hrun & _ & _ & Heos & Hdone & Hrec); try reflexivity.
    exists (lockstep args), w. repeat split; assumption.
  - intros sched w Hrun.
    pose proof (run_perKey_at action args sched w Hrun) as Hat.
    pose proof (run_eos_sound _ sched _ w Hrun) as [_ Heos].
    unfold perKey_at, exited in *.
    assert (Hall : ctx_done w = false -> ctl w = Exited ->
                   delivered w = map (perKeyResult action) args).
    { intros Hdone Hx. rewrite Hx in Hat.
      destruct Hat as (pre & rest & Hargs & Hd & Hrest & _).
      rewrite (Hrest Hdone), app_nil_r in Hargs. now subst pre. }
    split; [| split].
    + destruct (ctl w) as [[rest | v rest | v rest] |].
      * destruct Hat as (pre & Hargs & Hd & _). now exists pre, rest.
      * destruct Hat as (pre & arg & e & Hargs & _ & _ & Hd & _).
        now exists pre, (arg :: rest).
      * destruct Hat as (pre & arg & c & Hargs & _ & _ & Hd & _).
        now exists pre, (arg :: rest).
      * destruct Hat as (pre & rest & Hargs & Hd & _). now exists pre, rest.
    + intros Hdone Hx. apply Hall; [assumption |].
      destruct (ctl w); [discriminate | reflexivity].
    + intros Hdone He. destruct (Heos He) as [Hx Hbuf].
      assert (Hrec : received w = map (perKeyResult action) args).
      { rewrite <- Hall; [| assumption |].
        - unfold delivered. now rewrite Hbuf, app_nil_r.
        - destruct (ctl w); [discriminate | reflexivity]. }
      split; [exact Hrec |]. now rewrite Hrec, length_map.
Qed.

(** C4: for an argument that does not parse, the result put on the channel
    is the synthetic one, with the status StatusOtherError and the message
    made of the argument and the parse error; the goroutine gets to its
    send without calling the action, the send cannot be left through the
    cancellation, and after it the loop goes on with the arguments that
    follow.  On every schedule the action was called exactly on the
    identifiers among the arguments dealt with so far, and without
    cancellation a producer that has returned has delivered the results of
    the arguments before and after the bad one around its synthetic
    result. *)
Theorem parse_failure_is_reported_and_skipped
    (action : Cid -> ListRes)
    (before : list string) (bad : string) (after : list string)
    (e : GoError) :
  cid_Decode bad = inr e ->
  perKeyResult action bad =
    {| ListRes_Status := StatusOtherError;
       ErrorMsg := (bad ++ ": " ++ Error_text e)%string;
       ListRes_Entry := zero_Entry |} /\
  perKeyActionToChan action (PKRange (bad :: after)) =
    OpSkip (PKSendError (parse_failure bad e) after) /\
  perKeyActionToChan action (PKSendError (parse_failure bad e) after) =
    OpSend (parse_failure bad e) (PKRange after) /\
  (forall w : World PerKey ListRes Cid,
     ctl w = Running (PKSendError (parse_failure bad e) after) ->
     step (perKeyActionToChan action) TakeDone w = None) /\
  (forall sched w,
     run (perKeyActionToChan action) sched
         (start (PKRange (before ++ bad :: after))) = Some w ->
     (exists n, calls w = decoded (firstn n (before ++ bad :: after))) /\
     (ctx_done w = false -> exited w = true ->
        delivered w =
          map (perKeyResult action) before ++
          parse_failure bad e :: map (perKeyResult action) after /\
        calls w = decoded before ++ decoded after)).
Proof.
  intros Hbad.
  split; [now apply result_bad |].
  split; [simpl; now rewrite Hbad |].
  split; [reflexivity |].
  split; [intros w Hctl; simpl; now rewrite Hctl |].
  intros sched w Hrun.
  pose proof (run_perKey_at action _ sched w Hrun) as Hat.
  unfold perKey_at, exited in *.
  assert (Hfirst : forall pre rest : list string,
            firstn (List.length pre) (pre ++ rest) = pre).
  { intros pre rest. rewrite firstn_app, Nat.sub_diag, firstn_all.
    simpl. apply app_nil_r. }
  split.
  - destruct (ctl w) as [[rest | v rest | v rest] |].
    + destruct Hat as (pre & -> & _ & Hc).
      exists (List.length pre). now rewrite Hfirst.
    + destruct Hat as (pre & arg & e' & -> & _ & _ & _ & Hc).
      exists (List.length pre). now rewrite Hfirst.
    + destruct Hat as (pre & arg & c & Hargs & _ & _ & _ & Hc).
      exists (List.length (pre ++ [arg])).
      rewrite Hargs, (snoc_cons pre arg rest). now rewrite Hfirst.
    + destruct Hat as (pre & rest & -> & _ & _ & [Hc | Hc]).
      * exists (List.length pre). now rewrite Hfirst.
      * destruct Hc as (arg & rest' & -> & Hc).
        exists (List.length (pre ++ [arg])).
        rewrite (snoc_cons pre arg rest'). now rewrite Hfirst.
  - intros Hdone Hx.
    destruct (ctl w); [discriminate |].
    destruct Hat as (pre & rest & Hargs & Hd & Hrest & Hc).
    rewrite (Hrest Hdone), app_nil_r in Hargs.
    rewrite (Hrest Hdone) in Hc. subst pre.
    split.
    + rewrite Hd, map_app. simpl. now rewrite (result_bad action bad e).
    + destruct Hc as [Hc | (arg & rest' & Hnil & _)]; [| discriminate].
      rewrite Hc, decoded_app. simpl. now rewrite Hbad.
Qed.

(** A select reached after the cancellation can always be left, and having
    left the goroutine is gone for good. *)
Lemma select_can_leave {P Item Call : Type} (body : P -> Op P Item Call)
    (w : World P Item Call) (p : P) (v : Item) (k : P) :
  ctl w = Running p -> body p = OpSelect v k -> ctx_done w = true ->
  leaves_on_cancellation body w.
Proof.
  intros Hctl Hbody Hdone. exists (exit w).
  split; [simpl; now rewrite Hctl, Hbody, Hdone |].
  do 3 (split; [reflexivity |]).
  intros sched w'' Hrun.
  destruct (run_after_exit body sched (exit w) w'' eq_refl Hrun)
    as (Hx & Hd & Hc & Hn).
  repeat split; assumption.
Qed.

Lemma leaving_needs_cancellation {P Item Call : Type}
    (body : P -> Op P Item Call) (w w' : World P Item Call) :
  step body TakeDone w = Some w' -> ctx_done w = true.
Proof.
  simpl. destruct (ctl w) as [p |]; [| discriminate].
  destruct (body p); try discriminate.
  destruct (ctx_done w); [reflexivity | discriminate].
Qed.


(** What holds of every producer once it was started. *)
Lemma started_closes_once {P Item Call : Type} (body : P -> Op P Item Call)
    (sched : list Label) (p : P) (w : World P Item Call) :
  run body sched (start p) = Some w ->
  closed_iff_exited w /\ (closes w <= 1)%nat /\
  (eos w = true -> exited w = true) /\
  consumer_sees_end body w.
Proof.
  intros Hrun.
  pose proof (run_eos_sound body sched p w Hrun) as [Hc He].
  split; [exact Hc |].
  split; [unfold closed_iff_exited in Hc; destruct (exited w); lia |].
  split; [intros Hx; now destruct (He Hx) |].
  now apply exited_consumer_sees_end.
Qed.

(** C10: each of the three producers closes its channel exactly when its
    goroutine returns, whichever way it returns and whatever the schedule:
    the channel is closed once if the goroutine has returned and not at all
    before, never twice; the consumer's loop ends only after the return,
    and once the goroutine has returned a consumer that goes on receiving
    gets all the items sent and then the end of the stream. *)
Theorem producers_close_exactly_once (sched : list Label) :
  (forall (action : Cid -> ListRes) (args : list string) w,
     run (perKeyActionToChan action) sched (start (PKRange args)) = Some w ->
     closed_iff_exited w /\ (closes w <= 1)%nat /\
     (eos w = true -> exited w = true) /\
     consumer_sees_end (perKeyActionToChan action) w) /\
  (forall (G : Type) (next : G -> option ListRes * G) (g : G) w,
     run (listResToChan next) sched (start (LAPoll G g)) = Some w ->
     closed_iff_exited w /\ (closes w <= 1)%nat /\
     (eos w = true -> exited w = true) /\
     consumer_sees_end (listResToChan next) w) /\
  (forall (Has : Cid -> bool + GoError) (ch : list Cid) w,
     run (dupsFileStore Has) sched (start (DRange ch)) = Some w ->
     closed_iff_exited w /\ (closes w <= 1)%nat /\
     (eos w = true -> exited w = true) /\
     consumer_sees_end (dupsFileStore Has) w).
Proof.
  split; [| split]; intros; eapply started_closes_once; eassumption.
Qed.

End ProducerClaims.

(* ================================================================== *)
(** * More of cat.go: [cat] on every input, [Run], and the ends of
      [PostRun] *)

Section CatEveryInput.
Context `{Cmds} `{Cat.Unixfs}.
Import Cat.

Local Open Scope Z_scope.
Local Open Scope list_scope.

(** Every list of paths resolves entirely, or has a first path that does
    not. *)
Lemma paths_resolve_or_fail (paths : list string) :
  (exists found, map coreunix_Cat paths = map inl found) \/
  (exists before found bad after e,
     paths = before ++ bad :: after /\
     map coreunix_Cat before = map inl found /\
     coreunix_Cat bad = inr e).
Proof.
  induction paths as [| fpath paths IH].
  - left. now exists [].
  - destruct (coreunix_Cat fpath) as [read | e] eqn:Hhead.
    + destruct IH as [[found Hall] | (before & found & bad & after & e &
                                      Hsplit & Hbefore & Hbad)].
      * left. exists (read :: found). simpl. now rewrite Hhead, Hall.
      * right. exists (fpath :: before), (read :: found), bad, after, e.
        repeat split; [now rewrite Hsplit | | assumption].
        simpl. now rewrite Hhead, Hbefore.
    + right. exists [], [], fpath, paths, e. now repeat split.
Qed.

Lemma cat_all_found (paths : list string) (found : list DagReader) :
  map coreunix_Cat paths = map inl found ->
  cat paths =
    {| readers := Some found;
       length := uint64 (declared_total found);
       err := None; looked_up := paths |}.
Proof.
  intros Hall. unfold cat.
  rewrite (cat_loop_all_found paths found [] (uint64 0) [] Hall
             (uint64_idem 0)).
  reflexivity.
Qed.

Lemma cat_first_failure (before : list string) (found : list DagReader)
    (bad : string) (after : list string) (e : GoError) :
  map coreunix_Cat before = map inl found ->
  coreunix_Cat bad = inr e ->
  cat (before ++ bad :: after) =
    {| readers := None; length := 0; err := Some e;
       looked_up := before ++ [bad] |}.
Proof.
  intros Hbefore Hbad. unfold cat.
  now rewrite (cat_loop_first_failure before found [] (uint64 0) [] bad
                 after e Hbefore Hbad).
Qed.

Lemma declared_total_app (a b : list DagReader) :
  declared_total (a ++ b) = declared_total a + declared_total b.
Proof. induction a as [| r a IH]; simpl; [reflexivity | lia]. Qed.

Lemma map_inl_length {A B : Type} (xs : list (A + B)) (ys : list A) :
  xs = map inl ys -> List.length ys = List.length xs.
Proof. intros ->. now rewrite length_map. Qed.

(** X1: whatever the paths and the lookups, the length [cat] returns is a
    uint64, the slice of readers is nil exactly when an error is returned,
    the paths looked up are a prefix of the paths given, and without error
    there is one reader per path. *)
Theorem cat_result_is_well_formed (paths : list string) :
  0 <= length (cat paths) < 2 ^ 64 /\
  (readers (cat paths) = None <-> err (cat paths) <> None) /\
  (exists unvisited, paths = looked_up (cat paths) ++ unvisited) /\
  (err (cat paths) = None ->
   looked_up (cat paths) = paths /\
   exists found,
     readers (cat paths) = Some found /\
     map coreunix_Cat paths = map inl found /\
     List.length found = List.length paths).
Proof.
  destruct (paths_resolve_or_fail paths)
    as [[found Hall] | (before & found & bad & after & e &
                        Hsplit & Hbefore & Hbad)].
  - rewrite (cat_all_found paths found Hall). simpl.
    split; [apply Z.mod_pos_bound; lia |].
    split; [split; [discriminate | intros Hne; now elim Hne] |].
    split; [exists []; now rewrite app_nil_r |].
    intros _. split; [reflexivity |].
    exists found. repeat split; [assumption |].
    rewrite <- (length_map coreunix_Cat paths).
    now apply map_inl_length.
  - subst paths. rewrite (cat_first_failure before found bad after e
                            Hbefore Hbad). simpl.
    split; [lia |].
    split; [split; [discriminate | reflexivity] |].
    split; [exists after; now rewrite <- app_assoc | discriminate].
Qed.

(** X2: an error of [cat] names the first path that does not resolve:
    every path before it resolved, it is the last one looked up, and its
    lookup returned that very error. *)
Theorem cat_error_is_the_first_failure (paths : list string) (e : GoError) :
  err (cat paths) = Some e ->
  exists before found bad after,
    paths = before ++ bad :: after /\
    map coreunix_Cat before = map inl found /\
    coreunix_Cat bad = inr e /\
    looked_up (cat paths) = before ++ [bad].
Proof.
  intros Herr.
  destruct (paths_resolve_or_fail paths)
    as [[found Hall] | (before & found & bad & after & e' &
                        Hsplit & Hbefore & Hbad)].
  - rewrite (cat_all_found paths found Hall) in Herr. discriminate.
  - subst paths.
    rewrite (cat_first_failure before found bad after e' Hbefore Hbad)
      in Herr |- *.
    simpl in Herr. injection Herr as <-.
    exists before, found, bad, after. now repeat split.
Qed.

(** X3: [cat] on two lists of paths one after the other.  When the first
    list resolves, the result is that of the second list with the readers
    of the first put in front, the lengths added as uint64, and the paths
    of the first list looked up before; when the first list fails, the
    second one is not looked at. *)
Theorem cat_of_appended_paths (first second : list string) :
  (forall found,
     map coreunix_Cat first = map inl found ->
     cat (first ++ second) =
       match err (cat second) with
       | Some e =>
           {| readers := None; length := 0; err := Some e;
              looked_up := first ++ looked_up (cat second) |}
       | None =>
           {| readers :=
                option_map (app found) (readers (cat second));
              length :=
                uint64 (length (cat first) + length (cat second));
              err := None;
              looked_up := first ++ second |}
       end) /\
  (err (cat first) <> None -> cat (first ++ second) = cat first).
Proof.
  split.
  - intros found Hfirst.
    destruct (paths_resolve_or_fail second)
      as [[found2 Hall] | (before & found2 & bad & after & e &
                           Hsplit & Hbefore & Hbad)].
    + rewrite (cat_all_found second found2 Hall),
              (cat_all_found first found Hfirst). simpl.
      rewrite (cat_all_found (first ++ second) (found ++ found2))
        by (now rewrite !map_app, Hfirst, Hall).
      f_equal. rewrite declared_total_app. unfold uint64.
      now rewrite <- Z.add_mod by lia.
    + subst second.
      rewrite (cat_first_failure before found2 bad after e Hbefore Hbad).
      simpl. rewrite app_assoc.
      rewrite (cat_first_failure (first ++ before) (found ++ found2)
                 bad after e)
        by (try assumption; now rewrite !map_app, Hfirst, Hbefore).
      now rewrite <- app_assoc.
  - intros Hfails.
    destruct (paths_resolve_or_fail first)
      as [[found Hall] | (before & found & bad & after & e &
                          Hsplit & Hbefore & Hbad)].
    + rewrite (cat_all_found first found Hall) in Hfails.
      now elim Hfails.
    + subst first. rewrite <- app_assoc. simpl.
      now rewrite !(cat_first_failure before found bad _ e Hbefore Hbad).
Qed.

Import CatRun.


End CatEveryInput.

Section CatPostRunEnds.
Context `{Cmds}.
Import Cat.

Local Open Scope Z_scope.
Local Open Scope list_scope.

(** X5: on every response [PostRun] finishes the emitter exactly once,
    through [cmds.Copy] on the direct path and through the deferred
    [re.Close()] otherwise, never through both; and it sets at most one
    error. *)
Theorem PostRun_finishes_once (res : Response) :
  count finishes (CatCmd_PostRun res) = 1%nat /\
  (count is_CopyAll (CatCmd_PostRun res) = 1%nat <->
   plan (Length res) = DirectCopy) /\
  (count is_Close (CatCmd_PostRun res) = 1%nat <->
   plan (Length res) = ProgressPath) /\
  (count is_SetError (CatCmd_PostRun res) <= 1)%nat.
Proof.
  unfold CatCmd_PostRun.
  destruct (plan (Length res)).
  - unfold direct_copy. destruct (Copy res); cbn;
      repeat split; auto; discriminate.
  - unfold progress_path.
    destruct (Next res) as [[r | ty] | e];
      [| | destruct (is_ErrRcvdError e); [destruct (Error res) |]];
      cbn; repeat split; auto; discriminate.
Qed.


(** X7: the total the progress bar is made for is [int64(res.Length())]:
    it is the declared length while that is below 2^63, and the negative
    number that is 2^64 less from there on. *)
Theorem bar_total_is_the_signed_length (res : Response) (r : Reader) :
  progressBarMinSize <= Length res < 2 ^ 64 ->
  Next res = inl (VReader r) ->
  (Length res < 2 ^ 63 ->
   CatCmd_PostRun res =
     [BarStart (Length res); EmitProgress r (Length res); Close]) /\
  (2 ^ 63 <= Length res ->
   CatCmd_PostRun res =
     [BarStart (Length res - 2 ^ 64);
      EmitProgress r (Length res - 2 ^ 64); Close] /\
   Length res - 2 ^ 64 < 0).
Proof.
  intros Hrange Hnext.
  assert (Hplan : plan (Length res) = ProgressPath)
    by (apply plan_progress; lia).
  unfold CatCmd_PostRun, progress_path. rewrite Hplan, Hnext.
  assert (Hthr : progressBarMinSize = 8388608) by reflexivity.
  split.
  - intros Hsmall.
    assert (Hconv : int64 (Length res) = Length res).
    { unfold int64. rewrite Z.mod_small by lia. lia. }
    now rewrite Hconv.
  - intros Hbig.
    assert (Hconv : int64 (Length res) = Length res - 2 ^ 64).
    { unfold int64.
      replace (Length res + 2 ^ 63)
        with (Length res - 2 ^ 63 + 1 * 2 ^ 64) by lia.
      rewrite Z.mod_add by lia. rewrite Z.mod_small by lia. lia. }
    rewrite Hconv. split; [reflexivity | lia].
Qed.

End CatPostRunEnds.

(* ================================================================== *)
(** * More of the producers: [listResToChan] and [dupsFileStore] *)

(** Closes a goal [uncancelled sched] on an explicit schedule. *)
Ltac no_cancel :=
  unfold uncancelled;
  repeat (apply Forall_cons;
          [first [left; reflexivity | right; reflexivity] |]);
  apply Forall_nil.

Section DrainFacts.
Import Chan.
Context {P Item Call : Type}.
Variable body : P -> Op P Item Call.

Local Open Scope list_scope.

(** A consumer that receives what is in the buffer, whatever the producer
    is at. *)
Lemma drain_open (n : nat) :
  forall w : World P Item Call,
    List.length (buf w) = n -> eos w = false ->
    exists w',
      run body (repeat Receive n) w = Some w' /\
      buf w' = [] /\ received w' = delivered w /\ ctl w' = ctl w /\
      eos w' = false /\ ctx_done w' = ctx_done w /\
      calls w' = calls w /\ closes w' = closes w.
Proof.
  induction n as [| n IH]; intros w Hlen Hopen.
  - destruct (buf w) as [| v rest] eqn:Hbuf; [| discriminate].
    exists w. unfold delivered. rewrite Hbuf, app_nil_r.
    repeat split; auto.
  - destruct (buf w) as [| v rest] eqn:Hbuf; [discriminate |].
    simpl in Hlen. injection Hlen as Hlen.
    change (repeat Receive (S n)) with (Receive :: repeat Receive n).
    cbn [run step]. rewrite Hopen, Hbuf.
    edestruct (IH {| ctl := ctl w; buf := rest; closes := closes w;
                     ctx_done := ctx_done w;
                     received := received w ++ [v]; eos := false;
                     calls := calls w |})
      as (w' & Hrun & Hb & Hr & Hc & He & Hd & Hcl & Hn);
      try eassumption; try reflexivity.
    exists w'. split; [exact Hrun |].
    unfold delivered in *. simpl in *.
    rewrite Hbuf, Hr, <- app_assoc. repeat split; assumption.
Qed.

Lemma uncancelled_app (s1 s2 : list Label) :
  uncancelled s1 -> uncancelled s2 -> uncancelled (s1 ++ s2).
Proof. unfold uncancelled. intros H1 H2. now apply Forall_app. Qed.

Lemma uncancelled_receives (n : nat) : uncancelled (repeat Receive n).
Proof.
  unfold uncancelled. induction n; simpl; constructor; auto.
Qed.

End DrainFacts.

Section ListAllFacts.
Import Chan Producers Fs.
Context `{Cmds} `{Filestore}.
Context {G : Type}.
Variable next : G -> option ListRes * G.

Local Open Scope list_scope.

(** One more poll that yields a result. *)
Lemma polled_snoc (n : nat) :
  forall (g0 : G) (r : ListRes) (g' : G),
    List.length (fst (polled next n g0)) = n ->
    next (snd (polled next n g0)) = (Some r, g') ->
    polled next (S n) g0 = (fst (polled next n g0) ++ [r], g').
Proof.
  induction n as [| n IH]; intros g0 r g' Hlen Hnext.
  - simpl in *. now rewrite Hnext.
  - change (polled next (S (S n)) g0)
      with (match next g0 with
            | (None, _) => ([], g0)
            | (Some r0, g1) =>
                let (rs, g'') := polled next (S n) g1 in (r0 :: rs, g'')
            end).
    cbn [polled] in Hlen, Hnext |- *.
    destruct (next g0) as [[r0 |] g1]; [| discriminate].
    destruct (polled next n g1) as [rs g2] eqn:Hrest.
    simpl in Hlen, Hnext. injection Hlen as Hlen.
    assert (Hstep : polled next (S n) g1 = (rs ++ [r], g')).
    { rewrite (IH g1 r g'); rewrite Hrest; simpl; auto. }
    cbn [polled] in Hstep. rewrite Hstep. reflexivity.
Qed.

Lemma repeat_snoc {A : Type} (x : A) (n : nat) :
  repeat x n ++ [x] = repeat x (S n).
Proof. induction n; simpl; [reflexivity | now f_equal]. Qed.

Lemma step_listAll_at (g0 : G) (l : Label)
    (w w' : World (ListAll G) ListRes unit) :
  listAll_at next g0 w -> step (listResToChan next) l w = Some w' ->
  listAll_at next g0 w'.
Proof.
  unfold listAll_at. intros (n & Hlen & Hd & Hw) Hs.
  destruct l; simpl in Hs.
  - (* the producer moves *)
    destruct (ctl w) as [[g | v g] |] eqn:Hctl; simpl in Hs;
      try discriminate.
    + destruct Hw as [Hg Hc]. subst g.
      destruct (next (snd (polled next n g0))) as [[r |] g'] eqn:Hnext;
        injection Hs as <-; simpl; exists n; unfold delivered in *; simpl.
      * repeat split; auto. rewrite Hc. apply repeat_snoc.
      * repeat split; auto. intros _. now rewrite Hnext.
    + destruct Hw as [Hnext Hc].
      apply send_inv in Hs
        as (Hctl' & Hbuf & _ & _ & Hrec & _ & Hcalls & _).
      exists (S n). rewrite Hctl'.
      rewrite (polled_snoc n g0 v g Hlen Hnext). simpl.
      unfold delivered in *.
      rewrite Hrec, Hbuf, app_assoc, Hd, Hcalls, Hc, length_app, Hlen.
      simpl. repeat split; auto. lia.
  - (* the select takes the cancellation *)
    destruct (ctl w) as [[g | v g] |] eqn:Hctl; simpl in Hs;
      try discriminate.
    + destruct (next g) as [[r |] g']; discriminate.
    + destruct (ctx_done w) eqn:Hdone; [| discriminate].
      injection Hs as <-. simpl. destruct Hw as [_ Hc].
      exists n. unfold delivered in *. simpl. rewrite Hdone.
      repeat split; auto. discriminate.
  - (* the context is cancelled *)
    injection Hs as <-. simpl. exists n. unfold delivered in *. simpl.
    split; [assumption |]. split; [assumption |].
    destruct (ctl w) as [[g | v g] |]; auto.
    destruct Hw as [_ Hc]. split; [discriminate | assumption].
  - (* the consumer moves *)
    destruct (eos w); [discriminate |].
    assert (Hsame : ctl w' = ctl w /\ delivered w' = delivered w /\
                    calls w' = calls w /\ ctx_done w' = ctx_done w).
    { unfold delivered. destruct (buf w) as [| v rest].
      - destruct (Nat.ltb 0 (closes w)); [| discriminate].
        injection Hs as <-. simpl. repeat split.
      - injection Hs as <-. simpl. rewrite <- app_assoc. repeat split. }
    destruct Hsame as (Hc & Hd' & Hcalls & Hdone).
    exists n. rewrite Hc, Hd', Hcalls, Hdone. auto.
Qed.

Lemma run_listAll_at (g0 : G) (sched : list Label)
    (w : World (ListAll G) ListRes unit) :
  run (listResToChan next) sched (start (LAPoll G g0)) = Some w ->
  listAll_at next g0 w.
Proof.
  apply (run_invariant _ (listAll_at next g0)).
  - intros l w0 w1. apply step_listAll_at.
  - exists 0%nat. simpl. repeat split.
Qed.

(** The polls in lockstep, from any state of the closure. *)
Lemma lockstep_polls (n : nat) :
  forall (g : G) (w : World (ListAll G) ListRes unit),
    ctl w = Running (LAPoll G g) -> buf w = [] -> eos w = false ->
    List.length (fst (polled next n g)) = n ->
    fst (next (snd (polled next n g))) = None ->
    exists w',
      run (listResToChan next) (lockstep_items n) w = Some w' /\
      ctl w' = Exited /\ buf w' = [] /\ eos w' = true /\
      ctx_done w' = ctx_done w /\
      received w' = received w ++ fst (polled next n g).
Proof.
  unfold lockstep_items.
  induction n as [| n IH]; intros g w Hctl Hbuf Hopen Hlen Hnil.
  - destruct w as [c b k d r e cl]. simpl in *. subst c b e.
    destruct (next g) as [[x |] g'] eqn:Hnext; [discriminate |].
    cbn [run step ctl listResToChan]. rewrite Hnext.
    eexists. split; [reflexivity |]. simpl.
    rewrite app_nil_r. repeat split.
  - cbn [polled] in Hlen, Hnil.
    destruct (next g) as [[x |] g'] eqn:Hnext; [| discriminate].
    destruct (polled next n g') as [rs g''] eqn:Hrest.
    simpl in Hlen, Hnil. injection Hlen as Hlen.
    destruct w as [c b k d r e cl]. simpl in Hctl, Hbuf, Hopen.
    subst c b e.
    destruct (IH g' {| ctl := Running (LAPoll G g'); buf := [];
                       closes := k; ctx_done := d;
                       received := r ++ [x]; eos := false;
                       calls := cl ++ [tt] |})
      as (w' & Hrun & Hx & Hb & He & Hd & Hr); try reflexivity;
      try (rewrite Hrest; simpl; assumption).
    exists w'. split.
    + change (List.concat (repeat [Produce; Produce; Receive] (S n))
              ++ [Produce; Receive])
        with ([Produce; Produce; Receive] ++
              (List.concat (repeat [Produce; Produce; Receive] n)
               ++ [Produce; Receive])).
      rewrite run_app.
      cbn [run step ctl listResToChan]. rewrite Hnext.
      cbn [run step ctl listResToChan send buf List.length app
           capacity Nat.ltb Nat.leb eos].
      exact Hrun.
    + cbn [polled]. rewrite Hnext, Hrest. simpl in *.
      rewrite Hr, Hrest, <- app_assoc. simpl. repeat split; assumption.
Qed.

(** X8: [listResToChan] puts on its channel the results [next] yields,
    in the order of the polls and one per poll: on every schedule what is
    on the channel is the results of the first [n] polls, with [n] or
    [n + 1] polls made; without cancellation a producer that has returned
    has stopped at the first poll that yielded nil, and a consumer at the
    end of the stream has received all results before that nil.  When
    [next] yields nil after [n] results, there is a schedule on which the
    consumer receives them all. *)
Theorem listRes_delivers_polls_in_order (g0 : G) :
  (forall sched w,
     run (listResToChan next) sched (start (LAPoll G g0)) = Some w ->
     exists n,
       delivered w = fst (polled next n g0) /\
       List.length (delivered w) = n /\
       (List.length (calls w) = n \/ List.length (calls w) = S n) /\
       (exited w = true -> ctx_done w = false ->
        fst (next (snd (polled next n g0))) = None) /\
       (eos w = true -> ctx_done w = false ->
        received w = fst (polled next n g0) /\
        fst (next (snd (polled next n g0))) = None)) /\
  (forall n,
     List.length (fst (polled next n g0)) = n ->
     fst (next (snd (polled next n g0))) = None ->
     exists w,
       run (listResToChan next) (lockstep_items n) (start (LAPoll G g0))
         = Some w /\
       ctx_done w = false /\ eos w = true /\
       received w = fst (polled next n g0)).
Proof.
  split.
  - intros sched w Hrun.
    destruct (run_listAll_at g0 sched w Hrun) as (n & Hlen & Hd & Hw).
    pose proof (run_eos_sound _ sched _ w Hrun) as [_ Heos].
    exists n. unfold exited in *.
    assert (Hnil : ctl w = Exited -> ctx_done w = false ->
                   fst (next (snd (polled next n g0))) = None).
    { intros Hx Hdone. rewrite Hx in Hw. now apply Hw. }
    split; [exact Hd |]. split; [now rewrite Hd |].
    split; [| split].
    + destruct (ctl w) as [[g | v g] |].
      * destruct Hw as [_ ->]. left. apply repeat_length.
      * destruct Hw as [_ ->]. right. apply repeat_length.
      * destruct Hw as [_ [-> | ->]]; [left | right]; apply repeat_length.
    + intros Hx Hdone. apply Hnil; [| assumption].
      destruct (ctl w); [discriminate | reflexivity].
    + intros He Hdone. destruct (Heos He) as [Hx Hbuf].
      split.
      * rewrite <- Hd. unfold delivered. now rewrite Hbuf, app_nil_r.
      * apply Hnil; [| assumption].
        destruct (ctl w); [discriminate | reflexivity].
  - intros n Hlen Hnil.
    destruct (lockstep_polls n g0 (start (LAPoll G g0)))
      as (w & Hrun & _ & _ & He & Hd & Hr); try reflexivity;
      try assumption.
    exists w. repeat split; assumption.
Qed.

End ListAllFacts.

Section DupsFacts.
Import Chan Producers Fs.
Context `{Cmds} `{Filestore}.
Variable Has : Cid -> bool + GoError.

Local Open Scope list_scope.

Lemma step_dups_at (ch : list Cid) (l : Label)
    (w w' : World Dups RefWrapper Cid) :
  dups_at Has ch w -> step (dupsFileStore Has) l w = Some w' ->
  dups_at Has ch w'.
Proof.
  unfold dups_at. intros Hw Hs.
  destruct l; simpl in Hs.
  - (* the producer moves *)
    destruct (ctl w) as [[[| c rest] | v | v rest |] |] eqn:Hctl;
      simpl in Hs; try discriminate.
    + injection Hs as <-. simpl. unfold delivered in *. simpl.
      destruct Hw as [Hd Hc]. simpl in Hd, Hc.
      now rewrite app_nil_r in Hd, Hc.
    + destruct Hw as [Hd Hc]. simpl in Hd, Hc.
      destruct (Has c) as [[|] | err]; injection Hs as <-;
        simpl in *; unfold delivered, err_of, ref_of in *; simpl in *;
        rewrite <- ?app_assoc in *; simpl; split; assumption.
    + destruct Hw as [Hd Hc].
      apply send_inv in Hs
        as (Hctl' & Hbuf & _ & _ & Hrec & _ & Hcalls & _).
      rewrite Hctl'. unfold delivered in *.
      now rewrite Hrec, Hbuf, app_assoc, Hcalls.
    + destruct Hw as [Hd Hc].
      apply send_inv in Hs
        as (Hctl' & Hbuf & _ & _ & Hrec & _ & Hcalls & _).
      rewrite Hctl'. unfold delivered in *.
      rewrite Hrec, Hbuf, Hcalls, <- !app_assoc. simpl.
      rewrite <- app_assoc in Hd. now split.
    + injection Hs as <-. simpl. unfold delivered in *. simpl. exact Hw.
  - (* no operation of this goroutine is a select *)
    destruct (ctl w) as [[[| c rest] | v | v rest |] |]; simpl in Hs;
      try discriminate.
    destruct (Has c) as [[|] | err]; discriminate.
  - injection Hs as <-. simpl. unfold delivered in *. simpl. exact Hw.
  - destruct (eos w); [discriminate |].
    assert (Hsame : ctl w' = ctl w /\ delivered w' = delivered w /\
                    calls w' = calls w).
    { unfold delivered. destruct (buf w) as [| v rest].
      - destruct (Nat.ltb 0 (closes w)); [| discriminate].
        injection Hs as <-. simpl. repeat split.
      - injection Hs as <-. simpl. rewrite <- app_assoc. repeat split. }
    destruct Hsame as (-> & -> & ->). exact Hw.
Qed.

Lemma run_dups_at (ch : list Cid) (sched : list Label)
    (w : World Dups RefWrapper Cid) :
  run (dupsFileStore Has) sched (start (DRange ch)) = Some w ->
  dups_at Has ch w.
Proof.
  apply (run_invariant _ (dups_at Has ch)).
  - intros l w0 w1. apply step_dups_at.
  - split; reflexivity.
Qed.

Lemma dups_cannot_take_done (w : World Dups RefWrapper Cid) :
  step (dupsFileStore Has) TakeDone w = None.
Proof.
  simpl. destruct (ctl w) as [[[| c rest] | v | v rest |] |];
    try reflexivity.
  simpl. destruct (Has c) as [[|] | err]; reflexivity.
Qed.

(** The goroutine with a consumer that takes each item at once. *)
Lemma dups_completes (ch : list Cid) :
  forall w : World Dups RefWrapper Cid,
    ctl w = Running (DRange ch) -> buf w = [] -> eos w = false ->
    exists sched w',
      uncancelled sched /\
      run (dupsFileStore Has) sched w = Some w' /\
      ctl w' = Exited /\ eos w' = true /\
      ctx_done w' = ctx_done w /\
      received w' = received w ++ dups_output Has ch.
Proof.
  induction ch as [| c ch IH]; intros w Hctl Hbuf Hopen;
    destruct w as [x b k d r e cl]; simpl in Hctl, Hbuf, Hopen;
    subst x b e.
  - exists [Produce; Receive]. eexists.
    split; [no_cancel |].
    split; [reflexivity |]. simpl. rewrite app_nil_r. repeat split.
  - destruct (Has c) as [[|] | err] eqn:Hc.
    + destruct (IH {| ctl := Running (DRange ch); buf := [];
                      closes := k; ctx_done := d;
                      received := r ++ [ref_of c]; eos := false;
                      calls := cl ++ [c] |})
        as (sched & w' & Hun & Hrun & Hx & He & Hd & Hr);
        try reflexivity.
      exists ([Produce; Produce; Receive] ++ sched), w'.
      split; [apply uncancelled_app; [no_cancel | exact Hun] |].
      split.
      * rewrite run_app. cbn [run step ctl dupsFileStore]. rewrite Hc.
        cbn [run step ctl dupsFileStore send buf List.length app
             capacity Nat.ltb Nat.leb eos].
        exact Hrun.
      * simpl in *. rewrite Hc, Hr, <- app_assoc. repeat split;
          assumption.
    + destruct (IH {| ctl := Running (DRange ch); buf := [];
                      closes := k; ctx_done := d;
                      received := r; eos := false;
                      calls := cl ++ [c] |})
        as (sched & w' & Hun & Hrun & Hx & He & Hd & Hr);
        try reflexivity.
      exists ([Produce] ++ sched), w'.
      split; [apply uncancelled_app; [no_cancel | exact Hun] |].
      split.
      * rewrite run_app. cbn [run step ctl dupsFileStore]. rewrite Hc.
        exact Hrun.
      * simpl in *. rewrite Hc, Hr. repeat split; assumption.
    + exists [Produce; Produce; Receive; Produce; Receive]. eexists.
      split; [no_cancel |].
      split.
      * cbn [run step ctl dupsFileStore]. rewrite Hc.
        cbn [run step ctl dupsFileStore send buf List.length app
             capacity Nat.ltb Nat.leb eos closes exit received].
        reflexivity.
      * simpl. rewrite Hc. repeat split.
Qed.

Lemma dups_all_answer (ch : list Cid) :
  Forall (answers Has) ch ->
  dups_output Has ch = map ref_of (filter (has_it Has) ch) /\
  dups_asked Has ch = ch.
Proof.
  unfold has_it.
  induction 1 as [| c ch [b Hb] _ [IHo IHa]]; simpl; [now split |].
  rewrite Hb. destruct b; simpl; rewrite IHo, IHa; now split.
Qed.

Lemma dups_first_failure (before : list Cid) (bad : Cid)
    (after : list Cid) (e : GoError) :
  Forall (answers Has) before -> Has bad = inr e ->
  dups_output Has (before ++ bad :: after) =
    map ref_of (filter (has_it Has) before) ++ [err_of e] /\
  dups_asked Has (before ++ bad :: after) = before ++ [bad].
Proof.
  unfold has_it. intros Hbefore Hbad.
  induction Hbefore as [| c ch [b Hb] _ [IHo IHa]]; simpl.
  - now rewrite Hbad.
  - rewrite Hb. destruct b; simpl; rewrite IHo, IHa; now split.
Qed.

(** X9: the goroutine of [dupsFileStore] takes no notice of the
    cancellation: none of its sends is a select, so on no schedule can it
    leave through the context.  On every schedule what is on its channel is
    a prefix of the items due and [Has] was asked about a prefix of the
    keys due; once it has returned, cancelled or not, all items due are on
    the channel; and there is a schedule without cancellation on which the
    consumer receives them all. *)
Theorem dups_ignores_cancellation (ch : list Cid) :
  (forall sched w,
     run (dupsFileStore Has) sched (start (DRange ch)) = Some w ->
     step (dupsFileStore Has) TakeDone w = None /\
     (exists later, delivered w ++ later = dups_output Has ch) /\
     (exists later, calls w ++ later = dups_asked Has ch) /\
     (exited w = true ->
      delivered w = dups_output Has ch /\ calls w = dups_asked Has ch)) /\
  (exists sched w,
     uncancelled sched /\
     run (dupsFileStore Has) sched (start (DRange ch)) = Some w /\
     eos w = true /\ received w = dups_output Has ch).
Proof.
  split.
  - intros sched w Hrun.
    split; [apply dups_cannot_take_done |].
    pose proof (run_dups_at ch sched w Hrun) as Hat.
    unfold dups_at, exited in *.
    destruct (ctl w) as [[rest | v | v rest |] |];
      destruct Hat as [Hd Hc].
    + split; [now exists (dups_output Has rest) |].
      split; [now exists (dups_asked Has rest) | discriminate].
    + split; [now exists [v] |].
      split; [exists []; now rewrite app_nil_r | discriminate].
    + split; [now exists (v :: dups_output Has rest) |].
      split; [now exists (dups_asked Has rest) | discriminate].
    + split; [exists []; now rewrite app_nil_r |].
      split; [exists []; now rewrite app_nil_r | discriminate].
    + split; [exists []; now rewrite app_nil_r |].
      split; [exists []; now rewrite app_nil_r | now split].
  - destruct (dups_completes ch (start (DRange ch)))
      as (sched & w & Hun & Hrun & _ & He & _ & Hr); try reflexivity.
    exists sched, w. repeat split; assumption.
Qed.

(** X10: a goroutine of [dupsFileStore] that has returned has put on its
    channel a reference for each key the main blockstore has, in the order
    of the keys, and nothing else, when [Has] answered for every key; when
    [Has] failed, the references of the keys before the first failure,
    then that error as the last item, and it has asked about no key after
    that one. *)
Theorem dups_lists_until_first_failure
    (sched : list Label) (w : World Dups RefWrapper Cid) :
  exited w = true ->
  (forall ch,
     run (dupsFileStore Has) sched (start (DRange ch)) = Some w ->
     Forall (answers Has) ch ->
     delivered w = map ref_of (filter (has_it Has) ch) /\
     calls w = ch) /\
  (forall before bad after e,
     run (dupsFileStore Has) sched (start (DRange (before ++ bad :: after)))
       = Some w ->
     Forall (answers Has) before -> Has bad = inr e ->
     delivered w = map ref_of (filter (has_it Has) before) ++ [err_of e] /\
     calls w = before ++ [bad]).
Proof.
  intros Hx. unfold exited in Hx.
  split.
  - intros ch Hrun Hall.
    pose proof (run_dups_at ch sched w Hrun) as Hat. unfold dups_at in Hat.
    destruct (ctl w); [discriminate |]. destruct Hat as [-> ->].
    now apply dups_all_answer.
  - intros before bad after e Hrun Hall Hbad.
    pose proof (run_dups_at _ sched w Hrun) as Hat. unfold dups_at in Hat.
    destruct (ctl w); [discriminate |]. destruct Hat as [-> ->].
    now apply dups_first_failure.
Qed.

End DupsFacts.

Section PerKeyMore.
Import Chan Producers Fs.
Context `{Cmds} `{Filestore}.
Variable action : Cid -> ListRes.

Local Open Scope list_scope.

Lemma step_perKey_drops (args : list string) (l : Label)
    (w w' : World PerKey ListRes Cid) :
  perKey_drops_at_identifier action args w ->
  step (perKeyActionToChan action) l w = Some w' ->
  perKey_drops_at_identifier action args w'.
Proof.
  intros [Hat Hdrop] Hs.
  split; [eapply step_perKey_at; eassumption |].
  unfold perKey_at, perKey_left in *.
  destruct l; simpl in Hs.
  - (* the producer moves *)
    destruct (ctl w) as [[[| arg rest] | v rest | v rest] |] eqn:Hctl;
      simpl in Hs; try discriminate.
    + injection Hs as <-. simpl. left.
      destruct Hat as (pre & Hargs & Hd & Hc).
      rewrite app_nil_r in Hargs. subst pre. now split.
    + destruct Hat as (pre & Hargs & Hd & Hc).
      destruct (cid_Decode arg) as [c | e] eqn:Hdec;
        injection Hs as <-; simpl; [| exact I].
      exists pre, arg, c. unfold delivered in *. simpl.
      rewrite Hc. now repeat split.
    + apply send_inv in Hs as (-> & _). exact I.
    + apply send_inv in Hs as (-> & _). exact I.
  - (* the select takes the cancellation *)
    destruct (ctl w) as [[[| arg rest] | v rest | v rest] |] eqn:Hctl;
      simpl in Hs; try discriminate.
    + destruct (cid_Decode arg); discriminate.
    + destruct (ctx_done w) eqn:Hdone; [| discriminate].
      injection Hs as <-. simpl. right. split; [assumption |].
      destruct Hdrop as (before & arg & c & Hargs & Hdec & _ & Hd & Hc).
      exists before, arg, c, rest. unfold delivered in *. simpl.
      now repeat split.
  - (* the context is cancelled *)
    injection Hs as <-. simpl. unfold delivered in *. simpl.
    destruct (ctl w) as [[rest | v rest | v rest] |]; auto.
    destruct Hdrop as [Hall | [_ Hcut]]; [now left | right; now split].
  - (* the consumer moves *)
    destruct (eos w); [discriminate |].
    assert (Hsame : ctl w' = ctl w /\ delivered w' = delivered w /\
                    calls w' = calls w /\ ctx_done w' = ctx_done w).
    { unfold delivered. destruct (buf w) as [| v rest].
      - destruct (Nat.ltb 0 (closes w)); [| discriminate].
        injection Hs as <-. simpl. repeat split.
      - injection Hs as <-. simpl. rewrite <- app_assoc. repeat split. }
    destruct Hsame as (-> & -> & -> & ->). exact Hdrop.
Qed.

Lemma run_perKey_drops (args : list string) (sched : list Label)
    (w : World PerKey ListRes Cid) :
  run (perKeyActionToChan action) sched (start (PKRange args)) = Some w ->
  perKey_drops_at_identifier action args w.
Proof.
  apply (run_invariant _ (perKey_drops_at_identifier action args)).
  - intros l w0 w1. apply step_perKey_drops.
  - split; [exists []; now repeat split | exact I].
Qed.

(** X11: [perKeyActionToChan] gives up only at an identifier.  A
    producer that has returned has either delivered the results of all
    arguments and called the action on every identifier among them, or the
    context was cancelled and it stopped at an argument that parsed: the
    results of the arguments before it are delivered, its action was
    called, and its result was dropped.  So without cancellation, and also
    when no argument parses, everything is delivered. *)
Theorem perKey_gives_up_only_at_identifier
    (args : list string) (sched : list Label)
    (w : World PerKey ListRes Cid) :
  run (perKeyActionToChan action) sched (start (PKRange args)) = Some w ->
  exited w = true ->
  perKey_left action args w /\
  (ctx_done w = false \/
   Forall (fun arg => exists e, cid_Decode arg = inr e) args ->
   delivered w = map (perKeyResult action) args /\
   calls w = decoded args).
Proof.
  intros Hrun Hx.
  destruct (run_perKey_drops args sched w Hrun) as [_ Hleft].
  unfold exited in Hx. destruct (ctl w); [discriminate |].
  split; [exact Hleft |].
  intros Hwhy.
  destruct Hleft as [Hall | (Hdone & before & arg & c & after &
                             Hargs & Hdec & _)]; [exact Hall |].
  destruct Hwhy as [Hnot | Hnone]; [congruence |].
  subst args. apply Forall_app in Hnone as [_ Hnone].
  inversion Hnone as [| ? ? [e He] _]. congruence.
Qed.

Lemma uncancelled_lockstep (args : list string) :
  uncancelled (lockstep args).
Proof.
  unfold lockstep. apply uncancelled_app; [| no_cancel].
  induction args as [| arg args IH]; simpl; [constructor |].
  repeat (constructor; [first [now left | now right] |]). exact IH.
Qed.

(** A result in hand, an empty buffer: send it and have it received. *)
Lemma hand_over (p k : PerKey) (v : ListRes)
    (w : World PerKey ListRes Cid) :
  ctl w = Running p ->
  (perKeyActionToChan action p = OpSend v k \/
   perKeyActionToChan action p = OpSelect v k) ->
  buf w = [] -> eos w = false ->
  exists w',
    run (perKeyActionToChan action) [Produce; Receive] w = Some w' /\
    ctl w' = Running k /\ buf w' = [] /\ eos w' = false /\
    received w' = received w ++ [v].
Proof.
  intros Hctl Hop Hbuf Hopen.
  destruct w as [c b n d r e cl]. simpl in *. subst c b e.
  cbn [run step ctl].
  destruct Hop as [-> | ->];
    cbn [run step ctl send buf List.length app capacity Nat.ltb Nat.leb
         eos];
    (eexists; split; [reflexivity |]); simpl; repeat split.
Qed.

(** X12: [perKeyActionToChan] cannot get stuck against a consumer that
    goes on receiving.  From whatever state a schedule has led to, as long
    as the consumer has not seen the end of the stream, the producer's
    sends and the consumer's receives alone lead to the end of the stream,
    nothing delivered so far is lost, and if the producer had not returned
    the consumer ends up with the results of all arguments. *)
Theorem perKey_never_stuck
    (args : list string) (sched : list Label)
    (w : World PerKey ListRes Cid) :
  run (perKeyActionToChan action) sched (start (PKRange args)) = Some w ->
  eos w = false ->
  exists more w',
    uncancelled more /\
    run (perKeyActionToChan action) more w = Some w' /\
    eos w' = true /\
    (exists later, received w' = delivered w ++ later) /\
    (exited w = false -> received w' = map (perKeyResult action) args).
Proof.
  intros Hrun Hopen.
  pose proof (run_perKey_at action args sched w Hrun) as Hat.
  pose proof (run_closed_iff_exited _ sched _ w Hrun) as Hclosed.
  destruct (drain_open (perKeyActionToChan action)
              (List.length (buf w)) w eq_refl Hopen)
    as (w1 & Hrun1 & Hbuf1 & Hrec1 & Hctl1 & Hopen1 & _ & _ & Hcl1).
  unfold perKey_at, closed_iff_exited, exited in *.
  destruct (ctl w) as [[rest | v rest | v rest] |] eqn:Hctl.
  - destruct Hat as (pre & Hargs & Hd & _).
    destruct (lockstep_all action rest w1 Hctl1 Hbuf1 Hopen1)
      as (w2 & Hrun2 & _ & _ & Heos2 & _ & Hrec2).
    exists (repeat Receive (List.length (buf w)) ++ lockstep rest), w2.
    split; [apply uncancelled_app;
            [apply uncancelled_receives | apply uncancelled_lockstep] |].
    split; [now rewrite run_app, Hrun1 |].
    split; [assumption |].
    rewrite Hrec2, Hrec1.
    split; [now eexists |].
    intros _. now rewrite Hd, Hargs, map_app.
  - destruct Hat as (pre & arg & e & Hargs & Hdec & Hv & Hd & _).
    destruct (hand_over (PKSendError v rest) (PKRange rest) v w1 Hctl1
                (or_introl eq_refl) Hbuf1 Hopen1)
      as (w2 & Hrun2 & Hctl2 & Hbuf2 & Hopen2 & Hrec2).
    destruct (lockstep_all action rest w2 Hctl2 Hbuf2 Hopen2)
      as (w3 & Hrun3 & _ & _ & Heos3 & _ & Hrec3).
    exists (repeat Receive (List.length (buf w))
            ++ [Produce; Receive] ++ lockstep rest), w3.
    split; [apply uncancelled_app;
            [apply uncancelled_receives |
             apply uncancelled_app;
             [no_cancel | apply uncancelled_lockstep]] |].
    split; [now rewrite run_app, Hrun1, run_app, Hrun2 |].
    split; [assumption |].
    rewrite Hrec3, Hrec2, Hrec1, <- app_assoc.
    split; [now eexists |].
    intros _. rewrite Hd, Hargs, map_app. simpl.
    now rewrite (result_bad action arg e Hdec), Hv.
  - destruct Hat as (pre & arg & c & Hargs & Hdec & Hv & Hd & _).
    destruct (hand_over (PKSelect v rest) (PKRange rest) v w1 Hctl1
                (or_intror eq_refl) Hbuf1 Hopen1)
      as (w2 & Hrun2 & Hctl2 & Hbuf2 & Hopen2 & Hrec2).
    destruct (lockstep_all action rest w2 Hctl2 Hbuf2 Hopen2)
      as (w3 & Hrun3 & _ & _ & Heos3 & _ & Hrec3).
    exists (repeat Receive (List.length (buf w))
            ++ [Produce; Receive] ++ lockstep rest), w3.
    split; [apply uncancelled_app;
            [apply uncancelled_receives |
             apply uncancelled_app;
             [no_cancel | apply uncancelled_lockstep]] |].
    split; [now rewrite run_app, Hrun1, run_app, Hrun2 |].
    split; [assumption |].
    rewrite Hrec3, Hrec2, Hrec1, <- app_assoc.
    split; [now eexists |].
    intros _. rewrite Hd, Hargs, map_app. simpl.
    now rewrite (result_ok action arg c Hdec), Hv.
  - destruct (drain_closed (perKeyActionToChan action) 0 w1)
      as (w2 & Hrun2 & Heos2 & Hrec2 & _);
      [now rewrite Hbuf1 | rewrite Hcl1, Hclosed; lia | assumption |].
    exists (repeat Receive (List.length (buf w)) ++ repeat Receive 1), w2.
    split; [apply uncancelled_app; apply uncancelled_receives |].
    split; [now rewrite run_app, Hrun1 |].
    split; [assumption |].
    split; [| discriminate].
    exists []. rewrite Hrec2, app_nil_r. unfold delivered at 1.
    now rewrite Hbuf1, app_nil_r.
Qed.

End PerKeyMore.

(* ================================================================== *)
(** * More of filestore.go: [getFilestore], [Run] of [ls], the text
      marshaler of [verify], and every response of the bridge *)

Section FsRunFacts.
Import Chan Producers Fs FsRun.
Context `{Cmds} `{Filestore}.
Variables IpfsNode FS : Type.
Variable Node_Filestore : IpfsNode -> option FS.
Variable G : Type.
Variable list_one : FS -> Cid -> ListRes.
Variable list_all : FS -> G + GoError.
Variable next : G -> option ListRes * G.

Local Open Scope list_scope.

Local Abbreviation getFs := (getFilestore IpfsNode FS Node_Filestore).
Local Abbreviation Run :=
  (lsFileStore_Run IpfsNode FS Node_Filestore G list_one list_all next).

(** X13: [getFilestore] returns a filestore exactly when it returns no
    error, so a caller that has checked the error never holds a nil
    filestore.  The node is nil exactly when [GetNode] failed, whose error
    is then passed on; a node without filestore is returned together with
    the error "filestore not enabled". *)
Theorem getFilestore_filestore_or_error (g : IpfsNode + GoError) :
  match getFs g with
  | (n, fs, err) =>
      (fs = None <-> err <> None) /\
      (n = None <-> exists e, g = inr e) /\
      (forall e, g = inr e -> err = Some e) /\
      (forall nd, g = inl nd ->
         n = Some nd /\ fs = Node_Filestore nd /\
         (Node_Filestore nd = None ->
          err = Some (OtherError "filestore not enabled")))
  end.
Proof.
  unfold getFilestore.
  destruct g as [nd | e]; [destruct (Node_Filestore nd) as [fs |] eqn:Hfs |].
  - split; [split; [discriminate | intros Hne; now elim Hne] |].
    split; [split; [discriminate | intros [e He]; discriminate] |].
    split; [discriminate |].
    intros nd' Hnd. injection Hnd as <-. rewrite Hfs.
    repeat split. discriminate.
  - split; [split; [discriminate | reflexivity] |].
    split; [split; [discriminate | intros [e He]; discriminate] |].
    split; [discriminate |].
    intros nd' Hnd. injection Hnd as <-. rewrite Hfs. now repeat split.
  - split; [split; [discriminate | reflexivity] |].
    split; [split; [now exists e | reflexivity] |].
    split; [intros e' He; now injection He as <- | discriminate].
Qed.

(** What the consumer of [perKeyActionToChan] has in hand. *)
Lemma perKey_received (action : Cid -> ListRes) (args : list string)
    (sched : list Label) (w : World PerKey ListRes Cid) :
  run (perKeyActionToChan action) sched (start (PKRange args)) = Some w ->
  (exists later, received w ++ later = map (perKeyResult action) args) /\
  (eos w = true -> ctx_done w = false ->
   received w = map (perKeyResult action) args).
Proof.
  intros Hrun.
  pose proof (run_perKey_at action args sched w Hrun) as Hat.
  pose proof (run_eos_sound _ sched _ w Hrun) as [_ Heos].
  unfold perKey_at, exited, delivered in *.
  split.
  - destruct (ctl w) as [[rest | v rest | v rest] |].
    + destruct Hat as (pre & -> & Hd & _).
      exists (buf w ++ map (perKeyResult action) rest).
      now rewrite app_assoc, Hd, map_app.
    + destruct Hat as (pre & arg & e & -> & _ & _ & Hd & _).
      exists (buf w ++ map (perKeyResult action) (arg :: rest)).
      now rewrite app_assoc, Hd, map_app.
    + destruct Hat as (pre & arg & c & -> & _ & _ & Hd & _).
      exists (buf w ++ map (perKeyResult action) (arg :: rest)).
      now rewrite app_assoc, Hd, map_app.
    + destruct Hat as (pre & rest & -> & Hd & _).
      exists (buf w ++ map (perKeyResult action) rest).
      now rewrite app_assoc, Hd, map_app.
  - intros He Hdone. destruct (Heos He) as [Hx Hbuf].
    destruct (ctl w); [discriminate |].
    destruct Hat as (pre & rest & -> & Hd & Hrest & _).
    rewrite (Hrest Hdone), app_nil_r. rewrite <- Hd, Hbuf.
    now rewrite app_nil_r.
Qed.

(** What the consumer of [listResToChan] has in hand. *)
Lemma listAll_received (g0 : G) (sched : list Label)
    (w : World (ListAll G) ListRes unit) :
  run (listResToChan next) sched (start (LAPoll G g0)) = Some w ->
  exists n,
    (exists later, received w ++ later = fst (polled next n g0)) /\
    (eos w = true -> ctx_done w = false ->
     received w = fst (polled next n g0) /\
     fst (next (snd (polled next n g0))) = None).
Proof.
  intros Hrun.
  destruct (run_listAll_at next g0 sched w Hrun) as (n & _ & Hd & Hw).
  pose proof (run_eos_sound _ sched _ w Hrun) as [_ Heos].
  unfold exited, delivered in *.
  exists n. split; [now exists (buf w) |].
  intros He Hdone. destruct (Heos He) as [Hx Hbuf].
  destruct (ctl w); [discriminate |].
  rewrite <- Hd, Hbuf, app_nil_r. split; [reflexivity |].
  now apply Hw.
Qed.

(** X14: [Run] of [filestore ls].  Without a node or without a filestore
    it sets that error and emits nothing.  With arguments it emits, in the
    order of the arguments, results of [perKeyActionToChan] with the action
    [filestore.List]: always a prefix of the results due, and all of them
    when it returns without cancellation.  Without arguments it sets the
    error of [filestore.ListAll] and emits nothing, or emits what the
    closure yields: always a prefix of its results, and all results up to
    the first nil when it returns without cancellation. *)
Theorem ls_Run_lists_arguments_or_all
    (g : IpfsNode + GoError) (args : list string) (sched : list Label)
    (seen : Seen) :
  Run g args sched = Some seen ->
  (forall e, g = inr e -> failed_with e seen) /\
  (forall nd, g = inl nd -> Node_Filestore nd = None ->
     failed_with (OtherError "filestore not enabled") seen) /\
  (forall nd fs, g = inl nd -> Node_Filestore nd = Some fs ->
     (args <> [] ->
      set_error seen = None /\
      (exists later,
         emitted seen ++ later = map (perKeyResult (list_one fs)) args) /\
      (returned seen = true -> cancelled seen = false ->
       emitted seen = map (perKeyResult (list_one fs)) args)) /\
     (args = [] -> forall e, list_all fs = inr e -> failed_with e seen) /\
     (args = [] -> forall g0, list_all fs = inl g0 ->
      set_error seen = None /\
      exists n,
        (exists later, emitted seen ++ later = fst (polled next n g0)) /\
        (returned seen = true -> cancelled seen = false ->
         emitted seen = fst (polled next n g0) /\
         fst (next (snd (polled next n g0))) = None))).
Proof.
  unfold lsFileStore_Run, getFilestore. intros Hseen.
  split; [intros e ->; injection Hseen as <-; now repeat split |].
  split; [intros nd -> Hfs; rewrite Hfs in Hseen;
          injection Hseen as <-; now repeat split |].
  intros nd fs -> Hfs. rewrite Hfs in Hseen.
  split; [| split].
  - intros Hargs.
    destruct args as [| arg args']; [now elim Hargs |].
    cbn [List.length Nat.ltb Nat.leb] in Hseen.
    destruct (run _ sched (start (PKRange (arg :: args'))))
      as [w |] eqn:Hrun; [| discriminate].
    injection Hseen as <-. simpl.
    destruct (perKey_received _ _ sched w Hrun) as [Hprefix Hall].
    repeat split; assumption.
  - intros -> e He. simpl in Hseen. rewrite He in Hseen.
    injection Hseen as <-. now repeat split.
  - intros -> g0 Hg0. simpl in Hseen. rewrite Hg0 in Hseen.
    destruct (run _ sched (start (LAPoll G g0))) as [w |] eqn:Hrun;
      [| discriminate].
    injection Hseen as <-. simpl. split; [reflexivity |].
    exact (listAll_received g0 sched w Hrun).
Qed.

(** [==] on status codes. *)
Variable Status_eqb : Status -> Status -> bool.
Variable Status_Format : Status -> string.
Variable FormatLong : ListRes -> string.

Local Abbreviation Text :=
  (verifyFileStore_Text Status_eqb Status_Format FormatLong).

Lemma Text_lines (rs : list ListRes) :
  filter is_Stdout (flat_map Text rs) =
    map (verify_line Status_Format FormatLong) rs /\
  filter is_Stderr (flat_map Text rs) =
    map (fun r => Stderr (ErrorMsg r ++ newline))
        (filter (is_other_error Status_eqb) rs).
Proof.
  induction rs as [| r rs [IHo IHe]]; [now split |].
  cbn [flat_map]. unfold verifyFileStore_Text at 1 3.
  rewrite !filter_app. cbn [filter].
  destruct (is_other_error Status_eqb r); cbn; rewrite ?IHo, ?IHe;
    now split.
Qed.


End FsRunFacts.

Section BridgeEveryResponse.
Context `{Cmds} `{Filestore}.
Variable FormatLong : Fs.ListRes -> string.
Import Fs.

Local Open Scope list_scope.

(** Every response hands over some results and then fails, runs out, or
    hands over a value that is no ListRes. *)
Lemma pulls_shape (ps : list (Value + GoError)) :
  ps = map pulled (leading ps) ++ skipn (List.length (leading ps)) ps /\
  (skipn (List.length (leading ps)) ps = [] \/
   (exists e tail, skipn (List.length (leading ps)) ps = inr e :: tail) \/
   (exists tail, skipn (List.length (leading ps)) ps = inl VForeign :: tail)).
Proof.
  induction ps as [| [[r |] | e] ps [IHeq IHcase]]; simpl.
  - split; [reflexivity | now left].
  - split; [unfold pulled at 1; now rewrite <- IHeq | exact IHcase].
  - split; [reflexivity | right; right; now exists ps].
  - split; [reflexivity | right; left; now exists e, ps].
Qed.

Lemma pull_loop_runs_out (rs : list ListRes) :
  pull_loop FormatLong (map pulled rs) false [] =
    {| printed := map (line_of FormatLong) rs;
       errors := existsb soft rs;
       err := Some io_EOF;
       unread := [] |}.
Proof.
  rewrite <- (app_nil_r (map pulled rs)), pull_loop_results. reflexivity.
Qed.

Lemma pull_loop_foreign (rs : list ListRes) (tail : list (Value + GoError)) :
  pull_loop FormatLong (map pulled rs ++ inl VForeign :: tail) false [] =
    {| printed := map (line_of FormatLong) rs;
       errors := existsb soft rs;
       err := None;
       unread := tail |}.
Proof. rewrite pull_loop_results. reflexivity. Qed.

(** X16: a value that is no ListRes, and a received error without the
    error the response should carry, make the goroutine panic: the lines
    of the results before are written, the emitter is closed by the
    deferred [re.Close()], and no error is set, the one for the soft
    failures seen so far included. *)
Theorem bridge_panics_without_setting_errors
    (res : Response) (rs : list ListRes) (tail : list (Value + GoError)) :
  (pulls res = map pulled rs ++ inl VForeign :: tail ->
   lsFileStore_PostRun FormatLong res =
     map (line_of FormatLong) rs ++ [Panic; Close] /\
   lsFileStore_unread FormatLong res = tail) /\
  (pulls res = map pulled rs ++ inr ErrRcvdError :: tail ->
   clean_end ErrRcvdError = false -> Error res = None ->
   lsFileStore_PostRun FormatLong res =
     map (line_of FormatLong) rs ++ [Panic; Close]) /\
  (count is_SetError (map (line_of FormatLong) rs ++ [Panic; Close])
   = 0%nat).
Proof.
  split; [| split].
  - intros Hpulls. unfold lsFileStore_PostRun, lsFileStore_unread.
    rewrite Hpulls, pull_loop_foreign. now split.
  - intros Hpulls Hclean Hnil. unfold lsFileStore_PostRun.
    rewrite Hpulls, pull_loop_until_error. simpl.
    unfold classify. now rewrite Hclean, Hnil.
  - unfold count. rewrite filter_app. simpl. rewrite app_nil_r.
    induction rs as [| r rs IH]; [reflexivity |].
    simpl. unfold line_of at 1. now destruct (soft r).
Qed.

Lemma count_lines (rs : list ListRes) (ending : list Event) :
  existsb is_line ending = false ->
  count is_line (map (line_of FormatLong) rs ++ ending ++ [Close])
  = List.length rs.
Proof.
  intros Hnone. unfold count.
  rewrite !filter_app. simpl. rewrite app_nil_r, length_app.
  assert (Hend : filter is_line ending = []).
  { induction ending as [| x ending IH]; [reflexivity |].
    simpl in Hnone |- *. apply orb_false_iff in Hnone as [Hx Hrest].
    rewrite Hx. now apply IH. }
  rewrite Hend. simpl. rewrite Nat.add_0_r.
  induction rs as [| r rs IH]; [reflexivity |].
  simpl. unfold line_of at 1.
  destruct (soft r); simpl; now rewrite IH.
Qed.

(** The trace on a response that hands over [rs] and then [stop]. *)
Lemma bridge_trace_shape (res : Response) (rs : list ListRes)
    (stop : list (Value + GoError)) :
  pulls res = map pulled rs ++ stop ->
  (stop = [] \/ (exists e tail, stop = inr e :: tail) \/
   (exists tail, stop = inl VForeign :: tail)) ->
  exists ending,
    lsFileStore_PostRun FormatLong res =
      map (line_of FormatLong) rs ++ ending ++ [Close] /\
    (List.length ending <= 2)%nat /\
    existsb is_line ending = false /\
    existsb is_Close ending = false /\
    lsFileStore_unread FormatLong res = tl stop.
Proof.
  intros Hpulls Hcase.
  unfold lsFileStore_PostRun, lsFileStore_unread. rewrite Hpulls.
  destruct Hcase as [-> | [(e & tail & ->) | (tail & ->)]].
  - rewrite app_nil_r, pull_loop_runs_out. simpl.
    exists (aggregate (existsb soft rs)).
    destruct (existsb soft rs); simpl; repeat split; lia.
  - rewrite pull_loop_until_error. simpl. unfold classify.
    destruct (clean_end e);
      [| destruct (is_ErrRcvdError e); [destruct (Error res) as [ce |] |]].
    + exists (aggregate (existsb soft rs)).
      destruct (existsb soft rs); simpl; repeat split; lia.
    + exists ([SetError (EString (Message ce)) (Code ce)]
              ++ aggregate (existsb soft rs)).
      destruct (existsb soft rs); simpl; repeat split; lia.
    + exists [Panic]. simpl. repeat split; lia.
    + exists ([SetError (EError e) ErrNormal]
              ++ aggregate (existsb soft rs)).
      destruct (existsb soft rs); simpl; repeat split; lia.
  - rewrite pull_loop_foreign. simpl.
    exists [Panic]. simpl. repeat split; lia.
Qed.

Lemma skipn_past {A : Type} (n : nat) :
  forall l : list A, skipn (S n) l = tl (skipn n l).
Proof.
  induction n as [| n IH]; intros [| x l]; try reflexivity.
  exact (IH l).
Qed.

(** X17: on every response the bridge writes one line for each result
    pulled before the first failure, in order, then sets at most two
    errors or panics, and closes the emitter last and only once; it pulls
    nothing after the pull that made it stop. *)
Theorem bridge_trace_on_every_response (res : Response) :
  exists ending,
    lsFileStore_PostRun FormatLong res =
      map (line_of FormatLong) (leading (pulls res)) ++ ending ++ [Close] /\
    (List.length ending <= 2)%nat /\
    existsb is_line ending = false /\
    existsb is_Close ending = false /\
    count is_line (lsFileStore_PostRun FormatLong res)
      = List.length (leading (pulls res)) /\
    lsFileStore_unread FormatLong res =
      skipn (S (List.length (leading (pulls res)))) (pulls res).
Proof.
  destruct (pulls_shape (pulls res)) as [Heq Hcase].
  destruct (bridge_trace_shape res (leading (pulls res)) _ Heq Hcase)
    as (ending & Htrace & Hlen & Hlines & Hclose & Hunread).
  exists ending.
  split; [exact Htrace |]. split; [exact Hlen |].
  split; [exact Hlines |]. split; [exact Hclose |].
  split.
  - rewrite Htrace. now apply count_lines.
  - rewrite Hunread. symmetry. apply skipn_past.
Qed.

End BridgeEveryResponse.

(* ================================================================== *)
(** * The statements on the sample node *)

Import Sample.

Local Open Scope list_scope.

(** C1, as the specification has it, fails: with a declared length of 0
    and a reader to pull, [PostRun] does not call [cmds.Copy]; it starts a
    progress bar and emits the progress view of the reader. *)
Lemma zero_length_is_not_copied_directly :
  Cat.Length unsized = 0%Z /\
  Cat.plan (Cat.Length unsized) <> Cat.DirectCopy /\
  existsb Cat.is_CopyAll (Cat.CatCmd_PostRun unsized) = false /\
  existsb Cat.is_progress (Cat.CatCmd_PostRun unsized) = true /\
  Cat.CatCmd_PostRun unsized = [BarStart 0; EmitProgress data 0; Close].
Proof.
  split; [reflexivity |]. split; [discriminate |]. repeat split.
Qed.

Lemma zero_length_takes_progress_path_witness :
  Cat.Length unsized = 0%Z /\
  Cat.CatCmd_PostRun unsized = Cat.progress_path unsized /\
  existsb Cat.is_CopyAll (Cat.CatCmd_PostRun unsized) = false.
Proof.
  split; [reflexivity |].
  destruct (zero_length_takes_progress_path unsized eq_refl)
    as (_ & Hrun & Hcopy & _).
  split; [exact Hrun | exact Hcopy].
Defined.

Lemma threshold_selects_presentation_witness :
  (0 < Cat.Length nine_MiB)%Z /\
  (Cat.plan (Cat.Length nine_MiB) = Cat.ProgressPath <->
   (8 * 1024 * 1024 <= Cat.Length nine_MiB)%Z).
Proof.
  split; [simpl; lia |].
  apply (threshold_selects_presentation nine_MiB).
  simpl. lia.
Defined.

(** C6, as the specification has it, fails: two readers that each declare
    2^63 bytes resolve, and the length returned is 0, not their sum. *)
Lemma cat_total_wraps_around :
  map Cat.coreunix_Cat ["huge"; "huge"] =
    map inl (readers_of [2 ^ 63; 2 ^ 63]%Z) /\
  Cat.err (Cat.cat ["huge"; "huge"]) = None /\
  Cat.length (Cat.cat ["huge"; "huge"]) = 0%Z /\
  declared_total (readers_of [2 ^ 63; 2 ^ 63]%Z) = (2 ^ 64)%Z /\
  Cat.length (Cat.cat ["huge"; "huge"]) <>
    declared_total (readers_of [2 ^ 63; 2 ^ 63]%Z).
Proof.
  repeat split. vm_compute. discriminate.
Qed.

Lemma cat_returns_readers_and_wrapped_total_witness :
  map Cat.coreunix_Cat ["p1"; "p2"] = map inl (readers_of [10; 20]%Z) /\
  Cat.readers (Cat.cat ["p1"; "p2"]) = Some (readers_of [10; 20]%Z) /\
  Cat.length (Cat.cat ["p1"; "p2"]) = 30%Z.
Proof.
  split; [reflexivity |].
  destruct (cat_returns_readers_and_wrapped_total
              ["p1"; "p2"] (readers_of [10; 20]%Z) eq_refl)
    as (Hreaders & _ & _ & _ & Hexact).
  split; [exact Hreaders |].
  apply Hexact.
  - repeat constructor; simpl; lia.
  - reflexivity.
Defined.

Lemma cat_fails_fast_witness :
  map Cat.coreunix_Cat ["p1"] = map inl (readers_of [10%Z]) /\
  Cat.coreunix_Cat "nope" = inr (OtherError "no link by that name") /\
  Cat.err (Cat.cat (["p1"] ++ "nope" :: ["p2"])) =
    Some (OtherError "no link by that name") /\
  Cat.readers (Cat.cat (["p1"] ++ "nope" :: ["p2"])) = None /\
  Cat.length (Cat.cat (["p1"] ++ "nope" :: ["p2"])) = 0%Z /\
  Cat.looked_up (Cat.cat (["p1"] ++ "nope" :: ["p2"])) = ["p1"] ++ ["nope"].
Proof.
  split; [reflexivity |]. split; [reflexivity |].
  apply (cat_fails_fast ["p1"] (readers_of [10%Z]) "nope" ["p2"]);
    reflexivity.
Defined.

Lemma soft_failures_are_aggregated_witness :
  Fs.pulls listing = map pulled batch ++ inr io_EOF :: [] /\
  Fs.clean_end io_EOF = true /\
  Fs.lsFileStore_PostRun format_long listing =
    [Stdout ("QmA 7 /tmp/a 0" ++ newline);
     Stdout ("QmA 7 /tmp/a 0" ++ newline);
     Stderr ("QmX: no such file" ++ newline);
     Stdout ("QmA 7 /tmp/a 0" ++ newline);
     Stdout ("QmA 7 /tmp/a 0" ++ newline);
     SetError (EString "errors while displaying some entries") ErrNormal;
     Close].
Proof.
  split; [reflexivity |]. split; [reflexivity |].
  destruct (soft_failures_are_aggregated format_long listing batch io_EOF []
              eq_refl eq_refl) as (_ & _ & Hsoft & _).
  exact (Hsoft eq_refl).
Defined.


Lemma perKey_results_in_input_order_witness :
  exists w,
    Chan.run (Producers.perKeyActionToChan list_action) (lockstep mixed_args)
             (Chan.start (Producers.PKRange mixed_args)) = Some w /\
    Chan.ctx_done w = false /\ Chan.eos w = true /\
    Chan.received w =
      [ok 7; failed "bad: selected encoding not supported"; ok 7].
Proof.
  destruct (perKey_results_in_input_order list_action mixed_args)
    as [_ Hall].
  destruct (Chan.run (Producers.perKeyActionToChan list_action)
                     (lockstep mixed_args)
                     (Chan.start (Producers.PKRange mixed_args)))
    as [w |] eqn:Hrun; [| vm_compute in Hrun; discriminate].
  exists w. split; [reflexivity |].
  destruct (Hall _ w Hrun) as (_ & _ & Hend).
  vm_compute in Hrun. injection Hrun as Hw. subst w.
  split; [reflexivity |]. split; [reflexivity |].
  exact (proj1 (Hend eq_refl eq_refl)).
Defined.

Lemma parse_failure_is_reported_and_skipped_witness :
  cid_Decode "bad" = inr (OtherError "selected encoding not supported") /\
  Producers.perKeyResult list_action "bad" =
    failed "bad: selected encoding not supported" /\
  exists w,
    Chan.run (Producers.perKeyActionToChan list_action) (lockstep mixed_args)
             (Chan.start (Producers.PKRange (["QmA"] ++ "bad" :: ["QmB"])))
      = Some w /\
    Chan.delivered w =
      [ok 7; failed "bad: selected encoding not supported"; ok 7] /\
    Chan.calls w = ["QmA"; "QmB"].
Proof.
  split; [reflexivity |].
  destruct (parse_failure_is_reported_and_skipped list_action
              ["QmA"] "bad" ["QmB"]
              (OtherError "selected encoding not supported") eq_refl)
    as (Hres & _ & _ & _ & Hruns).
  split; [exact Hres |].
  destruct (Chan.run (Producers.perKeyActionToChan list_action)
                     (lockstep mixed_args)
                     (Chan.start
                        (Producers.PKRange (["QmA"] ++ "bad" :: ["QmB"]))))
    as [w |] eqn:Hrun; [| vm_compute in Hrun; discriminate].
  exists w. split; [reflexivity |].
  destruct (Hruns _ w Hrun) as (_ & Hend).
  vm_compute in Hrun. injection Hrun as Hw. subst w.
  exact (Hend eq_refl eq_refl).
Defined.



Lemma producers_close_exactly_once_witness :
  (exists w,
     Chan.run (Producers.perKeyActionToChan list_action)
              [Chan.Produce; Chan.Cancel; Chan.TakeDone]
              (Chan.start (Producers.PKRange mixed_args)) = Some w /\
     Chan.exited w = true /\ Chan.closes w = 1%nat) /\
  (exists w,
     Chan.run (Producers.listResToChan next_of)
              [Chan.Produce; Chan.Produce; Chan.Produce]
              (Chan.start (Producers.LAPoll _ [ok 1])) = Some w /\
     Chan.exited w = true /\ Chan.closes w = 1%nat) /\
  (exists w,
     Chan.run (Producers.dupsFileStore has)
              [Chan.Produce; Chan.Produce; Chan.Produce; Chan.Produce;
               Chan.Produce]
              (Chan.start (Producers.DRange all_keys)) = Some w /\
     Chan.exited w = true /\ Chan.closes w = 1%nat /\
     Chan.buf w = [ {| Fs.Ref := "QmA"; Fs.Err := EmptyString |};
                    {| Fs.Ref := EmptyString; Fs.Err := "leveldb: closed" |} ]).
Proof.
  split; [| split].
  - eexists. split; [vm_compute; reflexivity |].
    split; [reflexivity |].
    exact (proj1 (proj1 (producers_close_exactly_once
                           [Chan.Produce; Chan.Cancel; Chan.TakeDone])
                        list_action mixed_args _ eq_refl)).
  - eexists. split; [vm_compute; reflexivity |].
    split; [reflexivity |].
    exact (proj1 (proj1 (proj2 (producers_close_exactly_once
                                  [Chan.Produce; Chan.Produce; Chan.Produce]))
                        _ next_of [ok 1] _ eq_refl)).
  - eexists. split; [vm_compute; reflexivity |].
    split; [reflexivity |]. split; [| reflexivity].
    exact (proj1 (proj2 (proj2 (producers_close_exactly_once
                                  [Chan.Produce; Chan.Produce; Chan.Produce;
                                   Chan.Produce; Chan.Produce]))
                        has all_keys _ eq_refl)).
Defined.

(** ** The further properties on the sample node *)

Lemma cat_result_is_well_formed_witness :
  Cat.err (Cat.cat ["p1"; "p2"]) = None /\
  Cat.looked_up (Cat.cat ["p1"; "p2"]) = ["p1"; "p2"].
Proof.
  split; [reflexivity |].
  destruct (cat_result_is_well_formed ["p1"; "p2"]) as (_ & _ & _ & Hok).
  exact (proj1 (Hok eq_refl)).
Defined.

Lemma cat_error_is_the_first_failure_witness :
  Cat.err (Cat.cat ["p1"; "nope"; "p2"]) =
    Some (OtherError "no link by that name") /\
  exists before found bad after,
    ["p1"; "nope"; "p2"] = before ++ bad :: after /\
    map Cat.coreunix_Cat before = map inl found /\
    Cat.coreunix_Cat bad = inr (OtherError "no link by that name") /\
    Cat.looked_up (Cat.cat ["p1"; "nope"; "p2"]) = before ++ [bad].
Proof.
  split; [reflexivity |].
  apply (cat_error_is_the_first_failure ["p1"; "nope"; "p2"]).
  reflexivity.
Defined.

Lemma cat_of_appended_paths_witness :
  map Cat.coreunix_Cat ["p1"] = map inl (readers_of [10%Z]) /\
  Cat.cat (["p1"] ++ ["p2"]) =
    {| Cat.readers := Some (readers_of [10; 20]%Z); Cat.length := 30;
       Cat.err := None; Cat.looked_up := ["p1"; "p2"] |}.
Proof.
  split; [reflexivity |].
  rewrite (proj1 (cat_of_appended_paths ["p1"] ["p2"])
                 (readers_of [10%Z]) eq_refl).
  reflexivity.
Defined.

Lemma bar_total_is_the_signed_length_witness :
  (Cat.progressBarMinSize <= Cat.Length signed_overflow < 2 ^ 64)%Z /\
  Cat.Next signed_overflow = inl (Cat.VReader data) /\
  Cat.CatCmd_PostRun signed_overflow =
    [BarStart (- 2 ^ 63); EmitProgress data (- 2 ^ 63); Close].
Proof.
  split; [vm_compute; split; [discriminate | reflexivity] |].
  split; [reflexivity |].
  destruct (bar_total_is_the_signed_length signed_overflow data)
    as [_ Hbig]; [vm_compute; split; [discriminate | reflexivity]
                 | reflexivity |].
  destruct Hbig as [Htrace _]; [vm_compute; discriminate |].
  exact Htrace.
Defined.

Lemma listRes_delivers_polls_in_order_witness :
  List.length (fst (polled next_of 2 [ok 1; ok 2])) = 2%nat /\
  fst (next_of (snd (polled next_of 2 [ok 1; ok 2]))) = None /\
  exists w,
    Chan.run (Producers.listResToChan next_of) (lockstep_items 2)
             (Chan.start (Producers.LAPoll _ [ok 1; ok 2])) = Some w /\
    Chan.ctx_done w = false /\ Chan.eos w = true /\
    Chan.received w = fst (polled next_of 2 [ok 1; ok 2]).
Proof.
  split; [reflexivity |]. split; [reflexivity |].
  destruct (listRes_delivers_polls_in_order next_of [ok 1; ok 2])
    as [_ Hex].
  exact (Hex 2%nat eq_refl eq_refl).
Defined.

Lemma dups_ignores_cancellation_witness :
  exists w,
    Chan.run (Producers.dupsFileStore has)
             [Chan.Cancel; Chan.Produce; Chan.Produce; Chan.Produce;
              Chan.Produce; Chan.Produce]
             (Chan.start (Producers.DRange all_keys)) = Some w /\
    Chan.ctx_done w = true /\ Chan.exited w = true /\
    Chan.delivered w = dups_output has all_keys.
Proof.
  destruct (dups_ignores_cancellation has all_keys) as [Hall _].
  destruct (Chan.run (Producers.dupsFileStore has)
              [Chan.Cancel; Chan.Produce; Chan.Produce; Chan.Produce;
               Chan.Produce; Chan.Produce]
              (Chan.start (Producers.DRange all_keys)))
    as [w |] eqn:Hrun; [| vm_compute in Hrun; discriminate].
  exists w. split; [reflexivity |].
  destruct (Hall _ w Hrun) as (_ & _ & _ & Hend).
  vm_compute in Hrun. injection Hrun as Hw. subst w.
  split; [reflexivity |]. split; [reflexivity |].
  exact (proj1 (Hend eq_refl)).
Defined.

Lemma dups_lists_until_first_failure_witness :
  exists w,
    Chan.run (Producers.dupsFileStore has)
             [Chan.Produce; Chan.Produce; Chan.Produce; Chan.Produce;
              Chan.Produce]
             (Chan.start (Producers.DRange all_keys)) = Some w /\
    Chan.exited w = true /\
    Chan.delivered w =
      [ref_of broken_before; err_of (OtherError "leveldb: closed")] /\
    Chan.calls w = [broken_before; broken_key].
Proof.
  destruct (Chan.run (Producers.dupsFileStore has)
              [Chan.Produce; Chan.Produce; Chan.Produce; Chan.Produce;
               Chan.Produce]
              (Chan.start (Producers.DRange all_keys)))
    as [w |] eqn:Hrun; [| vm_compute in Hrun; discriminate].
  exists w. split; [reflexivity |].
  assert (Hx : Chan.exited w = true)
    by (vm_compute in Hrun; injection Hrun as <-; reflexivity).
  split; [exact Hx |].
  destruct (dups_lists_until_first_failure has
              [Chan.Produce; Chan.Produce; Chan.Produce; Chan.Produce;
               Chan.Produce] w Hx) as [_ Hfail].
  apply (Hfail [broken_before] broken_key [broken_after]
               (OtherError "leveldb: closed") Hrun).
  - constructor; [now exists true | constructor].
  - reflexivity.
Defined.

Lemma perKey_gives_up_only_at_identifier_witness :
  exists w,
    Chan.run (Producers.perKeyActionToChan list_action)
             [Chan.Produce; Chan.Cancel; Chan.TakeDone]
             (Chan.start (Producers.PKRange mixed_args)) = Some w /\
    Chan.exited w = true /\
    perKey_left list_action mixed_args w.
Proof.
  destruct (Chan.run (Producers.perKeyActionToChan list_action)
              [Chan.Produce; Chan.Cancel; Chan.TakeDone]
              (Chan.start (Producers.PKRange mixed_args)))
    as [w |] eqn:Hrun; [| vm_compute in Hrun; discriminate].
  exists w. split; [reflexivity |].
  pose proof Hrun as Hw. vm_compute in Hw. injection Hw as Hw. subst w.
  split; [reflexivity |].
  exact (proj1 (perKey_gives_up_only_at_identifier list_action mixed_args
                  _ _ Hrun eq_refl)).
Defined.

Lemma perKey_never_stuck_witness :
  exists w,
    Chan.run (Producers.perKeyActionToChan list_action)
             [Chan.Produce; Chan.Cancel]
             (Chan.start (Producers.PKRange mixed_args)) = Some w /\
    Chan.eos w = false /\
    exists more w',
      uncancelled more /\
      Chan.run (Producers.perKeyActionToChan list_action) more w = Some w' /\
      Chan.eos w' = true /\
      Chan.received w' = map (Producers.perKeyResult list_action) mixed_args.
Proof.
  destruct (Chan.run (Producers.perKeyActionToChan list_action)
              [Chan.Produce; Chan.Cancel]
              (Chan.start (Producers.PKRange mixed_args)))
    as [w |] eqn:Hrun; [| vm_compute in Hrun; discriminate].
  exists w. split; [reflexivity |].
  pose proof Hrun as Hw. vm_compute in Hw. injection Hw as Hw. subst w.
  split; [reflexivity |].
  destruct (perKey_never_stuck list_action mixed_args _ _ Hrun eq_refl)
    as (more & w' & Hun & Hmore & Heos & _ & Hall).
  exists more, w'. repeat split; try assumption.
  exact (Hall eq_refl).
Defined.

Lemma getFilestore_filestore_or_error_witness :
  snd (FsRun.getFilestore string string node_filestore (inl "plain")) =
    Some (OtherError "filestore not enabled").
Proof.
  pose proof (getFilestore_filestore_or_error string string node_filestore
                (inl "plain")) as Hplain.
  destruct (FsRun.getFilestore string string node_filestore (inl "plain"))
    as [[n fs] e].
  destruct Hplain as (_ & _ & _ & Hnode).
  exact (proj2 (proj2 (Hnode "plain" eq_refl)) eq_refl).
Defined.

Lemma ls_Run_lists_arguments_or_all_witness :
  FsRun.lsFileStore_Run string string node_filestore (list Fs.ListRes)
    list_one list_all next_of (inl "store") mixed_args
    (lockstep mixed_args) =
    Some {| FsRun.set_error := None;
            FsRun.emitted := what_listing_emits;
            FsRun.returned := true; FsRun.cancelled := false |} /\
  what_listing_emits =
    map (Producers.perKeyResult (list_one "store")) mixed_args.
Proof.
  assert (Hrun :
    FsRun.lsFileStore_Run string string node_filestore (list Fs.ListRes)
      list_one list_all next_of (inl "store") mixed_args
      (lockstep mixed_args) =
      Some {| FsRun.set_error := None;
              FsRun.emitted := what_listing_emits;
              FsRun.returned := true; FsRun.cancelled := false |})
    by (vm_compute; reflexivity).
  split; [exact Hrun |].
  destruct (ls_Run_lists_arguments_or_all string string node_filestore
              (list Fs.ListRes) list_one list_all next_of
              (inl "store") mixed_args (lockstep mixed_args) _ Hrun)
    as (_ & _ & Hstore).
  destruct (Hstore "store" "store" eq_refl eq_refl) as (Hargs & _).
  destruct Hargs as (_ & _ & Hall); [discriminate |].
  exact (Hall eq_refl eq_refl).
Defined.


Lemma bridge_panics_without_setting_errors_witness :
  Fs.pulls foreign_value =
    map pulled [failed "QmX: no such file"]
    ++ inl Fs.VForeign :: [pulled (ok 7)] /\
  Fs.lsFileStore_PostRun format_long foreign_value =
    [Stderr ("QmX: no such file" ++ newline); Panic; Close] /\
  Fs.lsFileStore_unread format_long foreign_value = [pulled (ok 7)].
Proof.
  split; [reflexivity |].
  destruct (bridge_panics_without_setting_errors format_long foreign_value
              [failed "QmX: no such file"] [pulled (ok 7)])
    as (Hforeign & _).
  exact (Hforeign eq_refl).
Defined.
